(** * slidingwindow: a 256-bit sliding-window replay filter

    Shallow embedding of [slidingwindow.go].  Go's [uint64] and [uint8]
    values are integers of [Z] with the wrap-around of every arithmetic
    operation written out; the [Int256] array [[4]uint64] is a record of
    four words, word 0 most significant; the pointer receiver of the two
    methods is explicit state passing. *)

From Stdlib Require Import Ascii String ZArith Lia List Bool Sorted.
Import ListNotations.
Local Open Scope Z_scope.

(** ** Machine integers *)

Module U64.
Definition modulus : Z := 2 ^ 64.
Definition max : Z := modulus - 1.
Definition wrap (z : Z) : Z := z mod modulus.
Definition inRange (z : Z) : Prop := 0 <= z < modulus.

Definition add (a b : Z) : Z := wrap (a + b).
Definition sub (a b : Z) : Z := wrap (a - b).
(* Go defines shifts for every count: a count of 64 or more gives 0. *)
Definition shl (x n : Z) : Z := wrap (Z.shiftl x n).
Definition shr (x n : Z) : Z := Z.shiftr x n.
End U64.

Module U8.
Definition limit : Z := 2 ^ 8.
Definition truncate (z : Z) : Z := z mod limit.
Definition diff (a b : Z) : Z := truncate (a - b).
(* the conversion uint8(x) of a uint64 *)
Definition ofU64 (z : Z) : Z := truncate z.
End U8.

(** ** Reason *)

Inductive Reason : Set :=
| ReasonFirst
| ReasonReuse
| ReasonShift
| ReasonOutOfWindow.

(** ** Int256 *)

Record Int256 : Set := mkInt256 { word0 : Z; word1 : Z; word2 : Z; word3 : Z }.

Definition zero256 : Int256 := mkInt256 0 0 0 0.

(* i[k]: every index of the source is one of the constants 0..3 or a/64 for
   a uint8 a, so it is never out of range. *)
Definition word (i : Int256) (k : Z) : Z :=
  match k with
  | 0 => word0 i
  | 1 => word1 i
  | 2 => word2 i
  | 3 => word3 i
  | _ => 0
  end.

(* i[k] = v *)
Definition setWord (i : Int256) (k : Z) (v : Z) : Int256 :=
  match k with
  | 0 => mkInt256 v (word1 i) (word2 i) (word3 i)
  | 1 => mkInt256 (word0 i) v (word2 i) (word3 i)
  | 2 => mkInt256 (word0 i) (word1 i) v (word3 i)
  | 3 => mkInt256 (word0 i) (word1 i) (word2 i) v
  | _ => i
  end.

Definition wf256 (i : Int256) : Prop :=
  U64.inRange (word0 i) /\ U64.inRange (word1 i) /\
  U64.inRange (word2 i) /\ U64.inRange (word3 i).

(* The number an Int256 stands for, word 0 most significant. *)
Definition value (i : Int256) : Z :=
  word0 i * 2 ^ 192 + word1 i * 2 ^ 128 + word2 i * 2 ^ 64 + word3 i.

Definition shiftLeft (i : Int256) (a : Z) : Int256 :=
  (* shift full words *)
  let i :=
    match a / 64 with
    | 0 => i
    | 1 =>
        let i := setWord i 0 (word i 1) in
        let i := setWord i 1 (word i 2) in
        let i := setWord i 2 (word i 3) in
        setWord i 3 0
    | 2 =>
        let i := setWord i 0 (word i 2) in
        let i := setWord i 1 (word i 3) in
        let i := setWord i 2 0 in
        setWord i 3 0
    | 3 =>
        let i := setWord i 0 (word i 3) in
        let i := setWord i 1 0 in
        let i := setWord i 2 0 in
        setWord i 3 0
    | _ =>
        let i := setWord i 0 0 in
        let i := setWord i 1 0 in
        let i := setWord i 2 0 in
        setWord i 3 0
    end in
  (* shift remaining bits *)
  let b := a mod 64 in
  let i := setWord i 0 (Z.lor (U64.shl (word i 0) b) (U64.shr (word i 1) (U64.sub 64 b))) in
  let i := setWord i 1 (Z.lor (U64.shl (word i 1) b) (U64.shr (word i 2) (U64.sub 64 b))) in
  let i := setWord i 2 (Z.lor (U64.shl (word i 2) b) (U64.shr (word i 3) (U64.sub 64 b))) in
  setWord i 3 (U64.shl (word i 3) b).

(* a is a uint8; 63-(a%64) is computed in uint8 and the constant 0x01 takes
   the type uint64 of the word it is combined with. *)
Definition setBit (i : Int256) (a : Z) : Int256 :=
  setWord i (a / 64) (Z.lor (word i (a / 64)) (U64.shl 1 (U8.diff 63 (a mod 64)))).

Definition isBitSet (i : Int256) (a : Z) : bool :=
  negb (Z.land (word i (a / 64)) (U64.shl 1 (U8.diff 63 (a mod 64))) =? 0).

(** The two phases of [shiftLeft], named so that each can be reasoned about
    on its own: the [switch] on [a / 64], then the four carry assignments. *)

Definition wordShift (i : Int256) (k : Z) : Int256 :=
  match k with
  | 0 => i
  | 1 =>
      let i := setWord i 0 (word i 1) in
      let i := setWord i 1 (word i 2) in
      let i := setWord i 2 (word i 3) in
      setWord i 3 0
  | 2 =>
      let i := setWord i 0 (word i 2) in
      let i := setWord i 1 (word i 3) in
      let i := setWord i 2 0 in
      setWord i 3 0
  | 3 =>
      let i := setWord i 0 (word i 3) in
      let i := setWord i 1 0 in
      let i := setWord i 2 0 in
      setWord i 3 0
  | _ =>
      let i := setWord i 0 0 in
      let i := setWord i 1 0 in
      let i := setWord i 2 0 in
      setWord i 3 0
  end.

Definition bitShift (i : Int256) (b : Z) : Int256 :=
  let i := setWord i 0 (Z.lor (U64.shl (word i 0) b) (U64.shr (word i 1) (U64.sub 64 b))) in
  let i := setWord i 1 (Z.lor (U64.shl (word i 1) b) (U64.shr (word i 2) (U64.sub 64 b))) in
  let i := setWord i 2 (Z.lor (U64.shl (word i 2) b) (U64.shr (word i 3) (U64.sub 64 b))) in
  setWord i 3 (U64.shl (word i 3) b).

(** ** SlidingWindow *)

Record SlidingWindow : Set := mkWindow { offset : Z; bitmap : Int256 }.

Definition set_offset (w : SlidingWindow) (o : Z) : SlidingWindow :=
  mkWindow o (bitmap w).
Definition set_bitmap (w : SlidingWindow) (b : Int256) : SlidingWindow :=
  mkWindow (offset w) b.

(* new(SlidingWindow): the zero value *)
Definition newWindow : SlidingWindow := mkWindow 0 zero256.

Definition wfWindow (w : SlidingWindow) : Prop :=
  U64.inRange (offset w) /\ wf256 (bitmap w).

Definition windowSize : Z := 256.

(* A method on *SlidingWindow returns its results and the window it leaves. *)
Definition Result : Set := (Reason * bool * SlidingWindow)%type.

Definition reason (r : Result) : Reason := fst (fst r).
Definition accepted (r : Result) : bool := snd (fst r).
Definition verdict (r : Result) : Reason * bool := fst r.
Definition after (r : Result) : SlidingWindow := snd r.

Definition CheckAndSetNonce (window : SlidingWindow) (nonce : Z) : Result :=
  if nonce <? offset window then
    (ReasonOutOfWindow, false, window)
  else if nonce >=? U64.add (offset window) windowSize then
    let newOffset := U64.add (U64.sub nonce windowSize) 1 in
    let shift := U64.sub newOffset (offset window) in
    let window := set_offset window newOffset in
    let window := set_bitmap window (shiftLeft (bitmap window) shift) in
    let window :=
      set_bitmap window
        (setBit (bitmap window) (U8.ofU64 (U64.sub nonce (offset window)))) in
    (ReasonShift, true, window)
  else
    let bitPos := U8.ofU64 (U64.sub nonce (offset window)) in
    if isBitSet (bitmap window) bitPos then
      (ReasonReuse, false, window)
    else
      let window := set_bitmap window (setBit (bitmap window) bitPos) in
      (ReasonFirst, true, window).

Definition CheckNonce (window : SlidingWindow) (nonce : Z) : Result :=
  if nonce <? offset window then
    (ReasonOutOfWindow, false, window)
  else if nonce >=? U64.add (offset window) windowSize then
    (ReasonShift, true, window)
  else
    let bitPos := U8.ofU64 (U64.sub nonce (offset window)) in
    if isBitSet (bitmap window) bitPos then
      (ReasonReuse, false, window)
    else
      (ReasonFirst, true, window).

(** ** Sequences of calls *)

(* The windows a sequence of CheckAndSetNonce calls passes through, the
   starting one first. *)
Fixpoint windows (w : SlidingWindow) (nonces : list Z) : list SlidingWindow :=
  match nonces with
  | [] => [w]
  | n :: rest => w :: windows (after (CheckAndSetNonce w n)) rest
  end.

(* The verdicts of the calls, in order. *)
Fixpoint verdicts (w : SlidingWindow) (nonces : list Z) : list (Reason * bool) :=
  match nonces with
  | [] => []
  | n :: rest =>
      verdict (CheckAndSetNonce w n) :: verdicts (after (CheckAndSetNonce w n)) rest
  end.

(* The window a sequence of calls leaves. *)
Definition runAll (w : SlidingWindow) (nonces : list Z) : SlidingWindow :=
  fold_left (fun w n => after (CheckAndSetNonce w n)) nonces w.

(* k calls of CheckNonce in a row on the same window. *)
Fixpoint peeks (k : nat) (w : SlidingWindow) (nonce : Z)
  : list (Reason * bool) * SlidingWindow :=
  match k with
  | O => ([], w)
  | S k' =>
      let r := CheckNonce w nonce in
      let '(vs, w') := peeks k' (after r) nonce in
      (verdict r :: vs, w')
  end.

(** ** The algorithm as the specification words it

    Section 4.2 of the specification, over unbounded integers: no sum or
    difference wraps and no position is truncated.  It is compared with
    [CheckAndSetNonce] below. *)

Definition classifyAndCommit (window : SlidingWindow) (nonce : Z) : Result :=
  if nonce <? offset window then
    (ReasonOutOfWindow, false, window)
  else if nonce >=? offset window + windowSize then
    let newOffset := nonce - windowSize + 1 in
    let shiftAmount := newOffset - offset window in
    let shifted := shiftLeft (bitmap window) shiftAmount in
    (ReasonShift, true, mkWindow newOffset (setBit shifted (nonce - newOffset)))
  else
    let bitPos := nonce - offset window in
    if isBitSet (bitmap window) bitPos then
      (ReasonReuse, false, window)
    else
      (ReasonFirst, true, mkWindow (offset window) (setBit (bitmap window) bitPos)).

(* offset + windowSize fits a uint64 *)
Definition noOverflow (w : SlidingWindow) : Prop :=
  0 <= offset w < U64.modulus - windowSize.

(* n is below the window, or inside it with its bit set *)
Definition seen (w : SlidingWindow) (n : Z) : Prop :=
  n < offset w \/
  (offset w <= n < offset w + windowSize /\ isBitSet (bitmap w) (n - offset w) = true).

(* a nonce other than the largest uint64: accepting it keeps noOverflow *)
Definition belowMax (n : Z) : Prop := 0 <= n < U64.max.

(* the invariant of a window that has only met nonces below the largest *)
Definition sound (w : SlidingWindow) : Prop := noOverflow w /\ wf256 (bitmap w).

Definition verdictTable : list (Reason * bool) :=
  [(ReasonFirst, true); (ReasonReuse, false); (ReasonShift, true);
   (ReasonOutOfWindow, false)].

Ltac range :=
  unfold belowMax, U64.max, noOverflow, U64.inRange, U64.modulus, windowSize in *;
  cbn [offset bitmap] in *; lia.

(** ** The rest of the program: definitions *)

(* the nonces a window has set bits for are among hist *)
Definition marks (w : SlidingWindow) (hist : list Z) : Prop :=
  forall k, 0 <= k < windowSize ->
    isBitSet (bitmap w) k = true -> In (offset w + k) hist.

Definition highest (nonces : list Z) : Z := fold_right Z.max 0 nonces.

(** *** Reason.String *)

(* the value of a Reason constant (iota) *)
Definition reasonCode (r : Reason) : Z :=
  match r with
  | ReasonFirst => 0
  | ReasonReuse => 1
  | ReasonShift => 2
  | ReasonOutOfWindow => 3
  end.

(* func (r Reason) String() string, on the uint8 under the Reason *)
Definition reasonString (r : Z) : string :=
  match r with
  | 0 => "First"
  | 1 => "Reuse"
  | 2 => "Shift"
  | 3 => "Small"
  | _ => "Unknown"
  end%string.

(** *** argsToInt *)

(* r[j] = x on a slice; None stands for the panic of an index out of range *)
Definition store (r : list Z) (j : nat) (x : Z) : option (list Z) :=
  if (j <? length r)%nat then Some (firstn j r ++ x :: skipn (S j) r) else None.

(* The loop of argsToInt over os.Args[1:], with the slice r and the index j.
   ParseUint stands for strconv.ParseUint(s, 10, 64): None when err != nil. *)
Fixpoint argsLoop (ParseUint : string -> option Z) (rest : list string)
  (r : list Z) (j : nat) : option (list Z) :=
  match rest with
  | [] => Some r
  | s :: rest' =>
      match ParseUint s with
      | None => argsLoop ParseUint rest' r j
      | Some x =>
          match store r j x with
          | None => None
          | Some r' => argsLoop ParseUint rest' r' (S j)
          end
      end
  end.

Definition argsToInt (ParseUint : string -> option Z) (osArgs : list string)
  : option (list Z) :=
  if (length osArgs <? 2)%nat then Some []
  else argsLoop ParseUint (tl osArgs) (repeat 0 (length osArgs - 1)) 0.

(* the arguments that parse, in order *)
Definition parsed (ParseUint : string -> option Z) (l : list string) : list Z :=
  flat_map (fun s => match ParseUint s with Some x => [x] | None => [] end) l.

(** *** blurString *)

Module Ansi.
Definition esc : ascii := "027"%char.
Definition one : list ascii := esc :: list_ascii_of_string "[0;37m".
Definition zero : list ascii := esc :: list_ascii_of_string "[1;30m".
Definition red : list ascii := esc :: list_ascii_of_string "[0;31m".
Definition end_ : list ascii := esc :: list_ascii_of_string "[0m".
End Ansi.

(* the closure color of blurString *)
Definition color (b : ascii) : list ascii :=
  if (b =? "1")%char then Ansi.one
  else if (b =? "0")%char then Ansi.zero
  else [].

(* The loop of blurString over the bytes of s from index p on, with the
   slice a built so far and the byte last. *)
Fixpoint blurLoop (bitPos p : Z) (bytes a : list ascii) (last : ascii) : list ascii :=
  match bytes with
  | [] => a
  | b :: rest =>
      if p =? bitPos then
        let a := a ++ Ansi.end_ in
        let a := a ++ Ansi.red in
        let a := a ++ [b] in
        let a := a ++ Ansi.end_ in
        blurLoop bitPos (p + 1) rest a "000"%char
      else if negb (b =? last)%char then
        let a := a ++ Ansi.end_ in
        let a := a ++ color b in
        blurLoop bitPos (p + 1) rest (a ++ [b]) b
      else
        blurLoop bitPos (p + 1) rest (a ++ [b]) last
  end.

(* None stands for the panic of s[0] on the empty string. *)
Definition blurString (s : list ascii) (bitPos : Z) : option (list ascii) :=
  match s with
  | [] => None
  | c :: _ =>
      let a := color c in
      let a := blurLoop bitPos 0 s a c in
      Some (a ++ Ansi.end_)
  end.

(* What a terminal shows: the bytes outside the escape sequences, each of
   which runs from ESC to the next m. *)
Fixpoint uncolorFrom (inEscape : bool) (out : list ascii) : list ascii :=
  match out with
  | [] => []
  | c :: rest =>
      if inEscape then uncolorFrom (negb (c =? "m")%char) rest
      else if (c =? Ansi.esc)%char then uncolorFrom true rest
      else c :: uncolorFrom false rest
  end.

Definition uncolor (out : list ascii) : list ascii := uncolorFrom false out.

Definition noEscape (s : list ascii) : Prop := ~ In Ansi.esc s.

(** *** printWindow and main *)

(* math.MaxInt and the conversion int(x) of a uint64, for a 64-bit int *)
Definition MaxInt : Z := 2 ^ 63 - 1.
Definition toInt (z : Z) : Z := if z <? 2 ^ 63 then z else z - 2 ^ 64.

Definition digit (b : bool) : ascii := if b then "1"%char else "0"%char.

(* fmt's verb %.64b on a uint64: its binary digits, most significant first,
   padded with zeros on the left to 64 digits. *)
Definition format64b (w : Z) : list ascii :=
  map (fun k => digit (Z.testbit w (63 - Z.of_nat k))) (seq 0 64).

(* fmt.Sprintf("%.64b%.64b%.64b%.64b", i[0], i[1], i[2], i[3]) *)
Definition sprintBitmap (i : Int256) : list ascii :=
  format64b (word i 0) ++ format64b (word i 1) ++ format64b (word i 2)
  ++ format64b (word i 3).

Definition printWindow (window : SlidingWindow) (nonce : Z) : option (list ascii) :=
  if nonce <? offset window then
    blurString (sprintBitmap (bitmap window)) MaxInt
  else
    blurString (sprintBitmap (bitmap window)) (toInt (U64.sub nonce (offset window))).





(** ** Word arithmetic *)

Section Words.

Lemma modulus_pos : 0 < U64.modulus.
Proof. reflexivity. Qed.

Lemma wrap_inRange z : U64.inRange (U64.wrap z).
Proof. apply Z.mod_pos_bound, modulus_pos. Qed.

Lemma wrap_small z : U64.inRange z -> U64.wrap z = z.
Proof. intros H. apply Z.mod_small, H. Qed.

Variable b : Z.
Hypothesis Hb : 0 <= b < 64.

Lemma pow2_split : 2 ^ 64 = 2 ^ (64 - b) * 2 ^ b.
Proof. rewrite <- Z.pow_add_r by lia. f_equal. lia. Qed.

Lemma carry_count : U64.sub 64 b = 64 - b.
Proof. unfold U64.sub. apply wrap_small. unfold U64.inRange, U64.modulus. lia. Qed.

(* the bits a left shift by b pushes out of a word *)
Lemma shr_carry w : U64.shr w (U64.sub 64 b) = w / 2 ^ (64 - b).
Proof. rewrite carry_count. unfold U64.shr. apply Z.shiftr_div_pow2. lia. Qed.

Lemma shl_split w : w * 2 ^ b = w / 2 ^ (64 - b) * 2 ^ 64 + U64.shl w b.
Proof.
  unfold U64.shl, U64.wrap, U64.modulus.
  rewrite Z.shiftl_mul_pow2 by lia.
  rewrite (Z.div_mod (w * 2 ^ b) (2 ^ 64)) at 1 by lia.
  rewrite pow2_split at 2.
  rewrite Z.div_mul_cancel_r by lia.
  lia.
Qed.

Lemma carry_bound w : U64.inRange w -> 0 <= w / 2 ^ (64 - b) < 2 ^ b.
Proof.
  intros [Hlo Hhi]. unfold U64.modulus in Hhi. split.
  - apply Z.div_pos; lia.
  - apply Z.div_lt_upper_bound; [lia|]. rewrite <- pow2_split. exact Hhi.
Qed.

Lemma shl_low_bits w j : 0 <= j < b -> Z.testbit (U64.shl w b) j = false.
Proof.
  intros Hj. unfold U64.shl, U64.wrap, U64.modulus.
  rewrite Z.mod_pow2_bits_low by lia.
  apply Z.shiftl_spec_low. lia.
Qed.

Lemma carry_high_bits w j :
  U64.inRange w -> b <= j -> Z.testbit (w / 2 ^ (64 - b)) j = false.
Proof.
  intros Hw Hj. destruct (carry_bound w Hw) as [Hlo Hhi].
  destruct (Z.eq_dec (w / 2 ^ (64 - b)) 0) as [E|E].
  - rewrite E. apply Z.bits_0.
  - apply Z.bits_above_log2; [lia|].
    apply Z.lt_le_trans with b; [|lia].
    apply Z.log2_lt_pow2; lia.
Qed.

(* The two halves of a carry step have no bit in common, so the bitwise or
   adds them. *)
Lemma carry_step w w' :
  U64.inRange w' ->
  Z.lor (U64.shl w b) (U64.shr w' (U64.sub 64 b))
  = U64.shl w b + w' / 2 ^ (64 - b).
Proof.
  intros Hw'. rewrite shr_carry.
  rewrite Z.add_nocarry_lxor, Z.lxor_lor; trivial;
    apply Z.bits_inj'; intros j Hj; rewrite Z.land_spec, Z.bits_0;
    destruct (Z.lt_ge_cases j b);
    solve [ rewrite shl_low_bits by lia; reflexivity
          | rewrite (carry_high_bits w') by (trivial; lia);
            apply andb_false_r ].
Qed.

Lemma shl_mod w : U64.shl w b = (w * 2 ^ b) mod 2 ^ 64.
Proof. unfold U64.shl, U64.wrap, U64.modulus. now rewrite Z.shiftl_mul_pow2 by lia. Qed.

Lemma carry_step_inRange w w' :
  U64.inRange w' -> U64.inRange (U64.shl w b + w' / 2 ^ (64 - b)).
Proof.
  intros Hw'. pose proof (carry_bound w' Hw') as Hc.
  unfold U64.inRange, U64.modulus.
  assert (Hm : exists q, 0 <= q < 2 ^ (64 - b) /\ U64.shl w b = q * 2 ^ b).
  { exists ((w mod 2 ^ (64 - b))). split.
    - apply Z.mod_pos_bound. lia.
    - rewrite shl_mod, pow2_split.
      rewrite Z.mul_mod_distr_r by lia. reflexivity. }
  destruct Hm as [q [Hq ->]]. rewrite pow2_split. nia.
Qed.

End Words.

(** ** The 256-bit value *)

Lemma shiftLeft_steps i a : shiftLeft i a = bitShift (wordShift i (a / 64)) (a mod 64).
Proof. reflexivity. Qed.

Lemma value_bound x : wf256 x -> 0 <= value x < 2 ^ 256.
Proof.
  unfold wf256, value, U64.inRange, U64.modulus. intros (H0 & H1 & H2 & H3). lia.
Qed.

Lemma shl_inRange w b : U64.inRange (U64.shl w b).
Proof. apply wrap_inRange. Qed.

Lemma bitShift_wf x b : wf256 x -> 0 <= b < 64 -> wf256 (bitShift x b).
Proof.
  intros (H0 & H1 & H2 & H3) Hb. unfold bitShift. cbn [word setWord word0 word1 word2 word3].
  rewrite !carry_step by assumption.
  unfold wf256; cbn [word0 word1 word2 word3].
  auto using carry_step_inRange, shl_inRange.
Qed.

Lemma bitShift_value x b :
  wf256 x -> 0 <= b < 64 -> value (bitShift x b) = (value x * 2 ^ b) mod 2 ^ 256.
Proof.
  intros Hx Hb. pose proof (value_bound _ (bitShift_wf x b Hx Hb)) as Hv.
  revert Hv. destruct Hx as (H0 & H1 & H2 & H3).
  unfold bitShift, value. cbn [word setWord word0 word1 word2 word3].
  rewrite !carry_step by assumption. intros Hv.
  apply Z.mod_unique_pos with (q := word0 x / 2 ^ (64 - b)); [exact Hv|].
  pose proof (shl_split b Hb (word0 x)) as E0.
  pose proof (shl_split b Hb (word1 x)) as E1.
  pose proof (shl_split b Hb (word2 x)) as E2.
  pose proof (shl_split b Hb (word3 x)) as E3.
  revert E0 E1 E2 E3. generalize (2 ^ b). intros p E0 E1 E2 E3.
  lia.
Qed.

(* With no remaining bits the carry expression shifts right by 64, which is
   0 in Go, and the words stay as they are. *)
Lemma bitShift_0 y : wf256 y -> bitShift y 0 = y.
Proof.
  destruct y as [y0 y1 y2 y3]. intros (H0 & H1 & H2 & H3). unfold bitShift.
  cbn [word setWord word0 word1 word2 word3] in *.
  rewrite !carry_step by (trivial; lia).
  unfold U64.shl. rewrite !Z.shiftl_0_r, !wrap_small by assumption.
  change (2 ^ (64 - 0)) with U64.modulus.
  rewrite !Z.div_small by assumption. now rewrite !Z.add_0_r.
Qed.

Lemma wordShift_wf x k : wf256 x -> wf256 (wordShift x k).
Proof.
  intros (H0 & H1 & H2 & H3).
  assert (Hz : U64.inRange 0) by (unfold U64.inRange, U64.modulus; lia).
  destruct k as [|[[[]|[]|]|[[]|[]|]|]|];
    unfold wf256; cbn [wordShift word setWord word0 word1 word2 word3]; auto.
Qed.

Lemma wordShift_value x k :
  wf256 x -> 0 <= k -> value (wordShift x k) = (value x * 2 ^ (64 * k)) mod 2 ^ 256.
Proof.
  intros Hx Hk. pose proof (value_bound _ (wordShift_wf x k Hx)) as Hv.
  destruct (Z.lt_ge_cases k 4) as [Hlt|Hge].
  - revert Hv. destruct Hx as (H0 & H1 & H2 & H3). unfold U64.inRange, U64.modulus in *.
    assert (Hc : k = 0 \/ k = 1 \/ k = 2 \/ k = 3) by lia.
    destruct Hc as [->|[->|[->| ->]]]; unfold value; cbn [wordShift word setWord word0 word1 word2 word3];
      intros Hv.
    + apply Z.mod_unique_pos with (q := 0); lia.
    + apply Z.mod_unique_pos with (q := word0 x); lia.
    + apply Z.mod_unique_pos with (q := word0 x * 2 ^ 64 + word1 x); lia.
    + apply Z.mod_unique_pos with (q := word0 x * 2 ^ 128 + word1 x * 2 ^ 64 + word2 x); lia.
  - replace (wordShift x k) with zero256.
    + replace (64 * k) with ((64 * k - 256) + 256) by lia.
      rewrite Z.pow_add_r by lia. rewrite Z.mul_assoc, Z.mod_mul by lia. reflexivity.
    + destruct k as [|[[[]|[]|]|[[]|[]|]|]|]; try lia; reflexivity.
Qed.

Lemma shiftLeft_wf x a : wf256 x -> 0 <= a -> wf256 (shiftLeft x a).
Proof.
  intros Hx Ha. rewrite shiftLeft_steps.
  apply bitShift_wf; [apply wordShift_wf, Hx | apply Z.mod_pos_bound; lia].
Qed.

Lemma shiftLeft_value x a :
  wf256 x -> 0 <= a -> value (shiftLeft x a) = (value x * 2 ^ a) mod 2 ^ 256.
Proof.
  intros Hx Ha. rewrite shiftLeft_steps.
  assert (Hb : 0 <= a mod 64 < 64) by (apply Z.mod_pos_bound; lia).
  assert (Hk : 0 <= a / 64) by (apply Z.div_pos; lia).
  rewrite bitShift_value by (auto using wordShift_wf).
  rewrite wordShift_value by assumption.
  rewrite Z.mul_mod_idemp_l by lia.
  rewrite <- Z.mul_assoc, <- Z.pow_add_r by lia.
  rewrite <- Z.div_mod by lia. reflexivity.
Qed.

Lemma value_zero x : wf256 x -> value x = 0 -> x = zero256.
Proof.
  destruct x as [a b c d]. unfold wf256, value, U64.inRange, U64.modulus, zero256.
  cbn [word0 word1 word2 word3]. intros (H0 & H1 & H2 & H3) Hv.
  f_equal; lia.
Qed.

Lemma shiftLeft_overflow x a : wf256 x -> 256 <= a -> shiftLeft x a = zero256.
Proof.
  intros Hx Ha. apply value_zero; [apply shiftLeft_wf; trivial; lia|].
  rewrite shiftLeft_value by (trivial; lia).
  replace a with ((a - 256) + 256) by lia.
  rewrite Z.pow_add_r by lia. rewrite Z.mul_assoc. apply Z.mod_mul. lia.
Qed.

(* bits *)
Lemma land_pow2 w k : 0 <= k -> negb (Z.land w (2 ^ k) =? 0) = Z.testbit w k.
Proof.
  intros Hk. destruct (Z.testbit w k) eqn:E.
  - destruct (Z.eqb_spec (Z.land w (2 ^ k)) 0) as [H|H]; trivial.
    apply (f_equal (fun z => Z.testbit z k)) in H.
    rewrite Z.land_spec, E, Z.pow2_bits_true, Z.bits_0 in H by lia. discriminate.
  - replace (Z.land w (2 ^ k)) with 0; trivial.
    symmetry. apply Z.bits_inj'. intros j Hj.
    rewrite Z.land_spec, Z.bits_0, Z.pow2_bits_eqb by lia.
    destruct (Z.eqb_spec k j) as [->|]; [rewrite E|]; auto using andb_false_r.
Qed.

Lemma bit_mask k : 0 <= k < 64 -> U64.shl 1 k = 2 ^ k.
Proof.
  intros Hk. unfold U64.shl. rewrite Z.shiftl_1_l. apply wrap_small.
  unfold U64.inRange, U64.modulus. split; [lia|]. apply Z.pow_lt_mono_r; lia.
Qed.

Lemma bit_index a : 0 <= a < 256 -> U8.diff 63 (a mod 64) = 63 - a mod 64.
Proof.
  intros Ha. unfold U8.diff, U8.truncate, U8.limit.
  pose proof (Z.mod_pos_bound a 64 ltac:(lia)).
  apply Z.mod_small. lia.
Qed.

Lemma isBitSet_word x a :
  0 <= a < 256 -> isBitSet x a = Z.testbit (word x (a / 64)) (63 - a mod 64).
Proof.
  intros Ha. unfold isBitSet. pose proof (Z.mod_pos_bound a 64 ltac:(lia)).
  rewrite bit_index, bit_mask by lia. apply land_pow2. lia.
Qed.

Lemma value_testbit x j :
  wf256 x -> 0 <= j < 256 ->
  Z.testbit (value x) j = Z.testbit (word x (3 - j / 64)) (j mod 64).
Proof.
  intros (H0 & H1 & H2 & H3) Hj. unfold U64.inRange, U64.modulus in *.
  pose proof (Z.mod_pos_bound j 64 ltac:(lia)) as Hm.
  assert (Hc : j / 64 = 0 \/ j / 64 = 1 \/ j / 64 = 2 \/ j / 64 = 3).
  { assert (0 <= j / 64 < 4) by (split; [apply Z.div_pos | apply Z.div_lt_upper_bound]; lia). lia. }
  rewrite (Z.div_mod j 64) at 1 by lia.
  rewrite <- (Z.mod_pow2_bits_low (word x (3 - j / 64)) 64) by lia.
  rewrite Z.add_comm, <- Z.div_pow2_bits by lia.
  rewrite <- (Z.mod_pow2_bits_low (value x / _) 64) by lia.
  f_equal. unfold value.
  destruct Hc as [-> |[-> |[-> | ->]]]; cbn [Z.sub Z.add Z.opp Z.pos_sub Z.mul Pos.mul word Z.succ_double Z.pred_double Z.double Pos.pred_double];
    Z.div_mod_to_equations; lia.
Qed.

Lemma isBitSet_value x p :
  wf256 x -> 0 <= p < 256 -> isBitSet x p = Z.testbit (value x) (255 - p).
Proof.
  intros Hx Hp. rewrite isBitSet_word, value_testbit by (trivial; lia).
  f_equal; [f_equal|]; Z.div_mod_to_equations; lia.
Qed.

Lemma isBitSet_shiftLeft x a q :
  wf256 x -> 0 <= a -> 0 <= q < 256 ->
  isBitSet (shiftLeft x a) q = if q + a <? 256 then isBitSet x (q + a) else false.
Proof.
  intros Hx Ha Hq.
  rewrite isBitSet_value by (auto using shiftLeft_wf).
  rewrite shiftLeft_value by assumption.
  rewrite Z.mod_pow2_bits_low by lia.
  rewrite Z.mul_pow2_bits by assumption.
  destruct (Z.ltb_spec (q + a) 256) as [H|H].
  - rewrite isBitSet_value by (trivial; lia). f_equal. lia.
  - apply Z.testbit_neg_r. lia.
Qed.

Lemma word_setWord x k v k' :
  0 <= k < 4 -> 0 <= k' < 4 ->
  word (setWord x k v) k' = if k' =? k then v else word x k'.
Proof.
  intros Hk Hk'.
  assert (Hc : k = 0 \/ k = 1 \/ k = 2 \/ k = 3) by lia.
  assert (Hc' : k' = 0 \/ k' = 1 \/ k' = 2 \/ k' = 3) by lia.
  destruct Hc as [-> |[-> |[-> | ->]]], Hc' as [-> |[-> |[-> | ->]]]; reflexivity.
Qed.

Lemma word_index a : 0 <= a < 256 -> 0 <= a / 64 < 4.
Proof. intros Ha. Z.div_mod_to_equations. lia. Qed.

Lemma isBitSet_setBit x p q :
  0 <= p < 256 -> 0 <= q < 256 ->
  isBitSet (setBit x p) q = if q =? p then true else isBitSet x q.
Proof.
  intros Hp Hq. pose proof (word_index p Hp). pose proof (word_index q Hq).
  pose proof (Z.mod_pos_bound p 64 ltac:(lia)). pose proof (Z.mod_pos_bound q 64 ltac:(lia)).
  rewrite !isBitSet_word by assumption. unfold setBit.
  rewrite word_setWord, bit_index, bit_mask by lia.
  destruct (Z.eqb_spec q p) as [->|Hne].
  - rewrite Z.eqb_refl, Z.lor_spec, Z.pow2_bits_true by lia. apply orb_true_r.
  - destruct (Z.eqb_spec (q / 64) (p / 64)) as [E|E]; trivial.
    rewrite E, Z.lor_spec, Z.pow2_bits_false, orb_false_r; trivial.
    Z.div_mod_to_equations. lia.
Qed.

Lemma log2_inRange a : U64.inRange a -> Z.log2 a < 64.
Proof.
  unfold U64.inRange, U64.modulus. intros Ha.
  destruct (Z.eq_dec a 0) as [->|Hn]; [reflexivity|].
  apply Z.log2_lt_pow2; lia.
Qed.

Lemma lor_inRange a b : U64.inRange a -> U64.inRange b -> U64.inRange (Z.lor a b).
Proof.
  intros Ha Hb. pose proof (log2_inRange a Ha). pose proof (log2_inRange b Hb).
  unfold U64.inRange, U64.modulus in *.
  assert (Hlo : 0 <= Z.lor a b) by (apply Z.lor_nonneg; lia).
  split; trivial.
  destruct (Z.eq_dec (Z.lor a b) 0) as [->|Hn]; [lia|].
  apply Z.log2_lt_pow2; [lia|].
  rewrite Z.log2_lor by lia. lia.
Qed.

Lemma setBit_wf x p : wf256 x -> 0 <= p < 256 -> wf256 (setBit x p).
Proof.
  intros (H0 & H1 & H2 & H3) Hp. pose proof (word_index p Hp) as Hk.
  pose proof (Z.mod_pos_bound p 64 ltac:(lia)).
  unfold setBit. rewrite bit_index, bit_mask by lia.
  assert (Hm : U64.inRange (2 ^ (63 - p mod 64))).
  { unfold U64.inRange, U64.modulus. split; [lia|]. apply Z.pow_lt_mono_r; lia. }
  assert (Hc : p / 64 = 0 \/ p / 64 = 1 \/ p / 64 = 2 \/ p / 64 = 3) by lia.
  destruct Hc as [-> |[-> |[-> | ->]]]; unfold wf256; cbn [word setWord word0 word1 word2 word3];
    auto using lor_inRange.
Qed.

(** ** One call without overflow *)

Lemma add_exact a b : U64.inRange (a + b) -> U64.add a b = a + b.
Proof. apply wrap_small. Qed.

Lemma sub_exact a b : U64.inRange (a - b) -> U64.sub a b = a - b.
Proof. apply wrap_small. Qed.

Lemma ofU64_exact z : 0 <= z < 256 -> U8.ofU64 z = z.
Proof. intros H. apply Z.mod_small. exact H. Qed.

(* Without overflow the code computes what the unbounded algorithm does. *)
Lemma CheckAndSetNonce_exact w n :
  noOverflow w -> U64.inRange n -> CheckAndSetNonce w n = classifyAndCommit w n.
Proof.
  intros Hw Hn. unfold CheckAndSetNonce, classifyAndCommit.
  destruct (Z.ltb_spec n (offset w)) as [Hlt|Hge]; trivial.
  rewrite (add_exact (offset w) windowSize) by range.
  destruct (offset w + windowSize <=? n) eqn:E; rewrite Z.geb_leb, E.
  - apply Z.leb_le in E. cbn [set_offset set_bitmap offset bitmap].
    rewrite (sub_exact n windowSize) by range.
    rewrite add_exact by range.
    rewrite !sub_exact by range. rewrite ofU64_exact by range.
    reflexivity.
  - apply Z.leb_gt in E. cbn zeta.
    rewrite sub_exact by range. rewrite ofU64_exact by range. reflexivity.
Qed.

Lemma belowMax_inRange n : belowMax n -> U64.inRange n.
Proof. intros H. range. Qed.

Lemma classifyAndCommit_sound w n :
  sound w -> belowMax n ->
  sound (after (classifyAndCommit w n)) /\ offset w <= offset (after (classifyAndCommit w n)).
Proof.
  intros [Ho Hb] Hn. unfold classifyAndCommit, sound.
  destruct (Z.ltb_spec n (offset w)) as [Hlt|Hge]; cbn [after snd]; [split; [split|]; trivial; lia|].
  destruct (offset w + windowSize <=? n) eqn:E; rewrite Z.geb_leb, E; cbn [after snd].
  - apply Z.leb_le in E. cbn [offset bitmap]. split; [split|]; try range.
    apply setBit_wf; [apply shiftLeft_wf; trivial|]; range.
  - apply Z.leb_gt in E.
    destruct (isBitSet (bitmap w) (n - offset w)); cbn [after snd offset bitmap];
      (split; [split|]; trivial; try lia).
    apply setBit_wf; trivial; range.
Qed.

Lemma accepted_seen w n :
  sound w -> belowMax n ->
  accepted (classifyAndCommit w n) = true -> seen (after (classifyAndCommit w n)) n.
Proof.
  intros [Ho Hb] Hn. unfold classifyAndCommit, seen.
  destruct (Z.ltb_spec n (offset w)) as [Hlt|Hge]; cbn [accepted after fst snd]; [discriminate|].
  destruct (offset w + windowSize <=? n) eqn:E; rewrite Z.geb_leb, E; cbn [accepted after fst snd].
  - intros _. right. cbn [offset bitmap]. split; [range|].
    rewrite isBitSet_setBit by range. now rewrite Z.eqb_refl.
  - apply Z.leb_gt in E.
    destruct (isBitSet (bitmap w) (n - offset w)) eqn:B; cbn [accepted after fst snd offset bitmap];
      [discriminate|].
    intros _. right. split; [lia|].
    rewrite isBitSet_setBit by range. now rewrite Z.eqb_refl.
Qed.

Lemma seen_rejected w n :
  seen w n -> accepted (classifyAndCommit w n) = false.
Proof.
  unfold seen, classifyAndCommit. intros [Hlt|[Hin Hbit]].
  - apply Z.ltb_lt in Hlt. now rewrite Hlt.
  - destruct (Z.ltb_spec n (offset w)) as [Hlt|Hge]; trivial.
    destruct (offset w + windowSize <=? n) eqn:E; rewrite Z.geb_leb, E.
    + apply Z.leb_le in E. lia.
    + now rewrite Hbit.
Qed.

Lemma seen_preserved w n m :
  sound w -> belowMax m -> seen w n -> seen (after (classifyAndCommit w m)) n.
Proof.
  intros [Ho Hb] Hm Hs. unfold classifyAndCommit.
  destruct (Z.ltb_spec m (offset w)) as [Hlt|Hge]; cbn [after snd]; trivial.
  destruct (offset w + windowSize <=? m) eqn:E; rewrite Z.geb_leb, E; cbn [after snd].
  - apply Z.leb_le in E. unfold seen in *. cbn [offset bitmap].
    destruct (Z.lt_ge_cases n (m - windowSize + 1)) as [Hn|Hn]; [left; trivial|right].
    destruct Hs as [Hs|[Hin Hbit]]; [lia|]. split; [range|].
    rewrite isBitSet_setBit by range.
    destruct (Z.eqb_spec (n - (m - windowSize + 1)) (m - (m - windowSize + 1))); trivial.
    rewrite isBitSet_shiftLeft by (trivial; range).
    destruct (Z.ltb_spec (n - (m - windowSize + 1) + (m - windowSize + 1 - offset w)) 256) as [L|L];
      [|range].
    rewrite <- Hbit. f_equal. lia.
  - apply Z.leb_gt in E.
    destruct (isBitSet (bitmap w) (m - offset w)) eqn:B; cbn [after snd]; trivial.
    unfold seen in *. cbn [offset bitmap].
    destruct Hs as [Hs|[Hin Hbit]]; [left; trivial|right]. split; trivial.
    rewrite isBitSet_setBit by range.
    destruct (Z.eqb_spec (n - offset w) (m - offset w)); trivial.
Qed.

(** ** Sequences of calls below the largest nonce *)

Lemma sound_newWindow : sound newWindow.
Proof. unfold sound, newWindow, wf256; cbn. repeat split; range. Qed.

Lemma CheckAndSetNonce_sound w n :
  sound w -> belowMax n ->
  sound (after (CheckAndSetNonce w n)) /\ offset w <= offset (after (CheckAndSetNonce w n)).
Proof.
  intros Hw Hn. rewrite CheckAndSetNonce_exact by (try apply Hw; range).
  now apply classifyAndCommit_sound.
Qed.

Lemma runAll_sound ns : forall w,
  sound w -> Forall belowMax ns -> sound (runAll w ns) /\ offset w <= offset (runAll w ns).
Proof.
  unfold runAll. induction ns as [|n ns IH]; intros w Hw Hns; cbn [fold_left].
  - split; [assumption | lia].
  - inversion Hns as [|? ? Hn Hrest]; subst.
    destruct (CheckAndSetNonce_sound w n Hw Hn) as [Hw' Hle].
    destruct (IH _ Hw' Hrest) as [Hs Hle']. split; [assumption | lia].
Qed.

(** Along calls whose nonces stay below 2^64 - 1, from a window whose
    offset is below 2^64 - 256, the offset never decreases. *)
Theorem offsets_nondecreasing_below_max ns : forall w,
  sound w -> Forall belowMax ns -> Sorted Z.le (map offset (windows w ns)).
Proof.
  induction ns as [|n ns IH]; intros w Hw Hns; cbn [windows map].
  - repeat constructor.
  - inversion Hns as [|? ? Hn Hrest]; subst.
    destruct (CheckAndSetNonce_sound w n Hw Hn) as [Hw' Hle].
    constructor; [now apply IH|].
    destruct ns; cbn [windows map]; constructor; exact Hle.
Qed.

Lemma seen_runAll ns : forall w n,
  sound w -> Forall belowMax ns -> seen w n -> seen (runAll w ns) n.
Proof.
  unfold runAll. induction ns as [|m ns IH]; intros w n Hw Hns Hs; cbn [fold_left]; trivial.
  inversion Hns as [|? ? Hm Hrest]; subst.
  apply IH; trivial.
  - now apply CheckAndSetNonce_sound.
  - rewrite CheckAndSetNonce_exact by (try apply Hw; range). now apply seen_preserved.
Qed.

(** Along such calls a nonce that was accepted is never accepted again. *)
Theorem no_double_accept_below_max w n ns :
  sound w -> belowMax n -> Forall belowMax ns ->
  accepted (CheckAndSetNonce w n) = true ->
  accepted (CheckAndSetNonce (runAll (after (CheckAndSetNonce w n)) ns) n) = false.
Proof.
  intros Hw Hn Hns Hacc.
  destruct (CheckAndSetNonce_sound w n Hw Hn) as [Hw' _].
  destruct (runAll_sound ns _ Hw' Hns) as [Hw'' _].
  rewrite CheckAndSetNonce_exact by (try apply Hw''; range).
  apply seen_rejected, seen_runAll; trivial.
  revert Hacc. rewrite CheckAndSetNonce_exact by (try apply Hw; range).
  now apply accepted_seen.
Qed.

(** Along such calls a nonce below the offset stays out of window. *)
Theorem stale_forever_below_max w n ns :
  sound w -> Forall belowMax ns -> n < offset w ->
  verdict (CheckAndSetNonce (runAll w ns) n) = (ReasonOutOfWindow, false).
Proof.
  intros Hw Hns Hlt. destruct (runAll_sound ns w Hw Hns) as [_ Hle].
  unfold CheckAndSetNonce.
  destruct (Z.ltb_spec n (offset (runAll w ns))); [reflexivity | lia].
Qed.

(** ** Windows at the top of the range

    Once the offset is 2^64 - 256 or more, [offset + windowSize] wraps
    around and the test for the shift branch holds for every nonce that is
    not below the offset. *)

(** A window whose offset is 2^64 - 256 or more accepts every nonce that is
    not below its offset, with reason Shift, and moves its offset to the
    nonce minus 255, set or not, inside the window or not. *)
Lemma wrapped_window_shifts w n :
  U64.inRange (offset w) -> U64.modulus - windowSize <= offset w ->
  U64.inRange n -> offset w <= n ->
  verdict (CheckAndSetNonce w n) = (ReasonShift, true)
  /\ offset (after (CheckAndSetNonce w n)) = n - 255.
Proof.
  intros Ho Htop Hn Hge. unfold CheckAndSetNonce.
  destruct (Z.ltb_spec n (offset w)) as [Hlt|_]; [lia|].
  assert (Hsum : U64.add (offset w) windowSize = offset w + windowSize - U64.modulus).
  { unfold U64.add, U64.wrap. symmetry.
    apply Z.mod_unique_pos with (q := 1); range. }
  rewrite Hsum.
  replace (n >=? offset w + windowSize - U64.modulus) with true
    by (symmetry; rewrite Z.geb_leb; apply Z.leb_le; range).
  cbn [verdict after fst snd set_offset set_bitmap offset bitmap].
  split; [reflexivity|].
  rewrite (sub_exact n windowSize) by range.
  rewrite add_exact by range. range.
Qed.

(** ** Scenarios of the specification *)

Example scenarioA :
  verdicts newWindow [0; 0] = [(ReasonFirst, true); (ReasonReuse, false)].
Proof. vm_compute. reflexivity. Qed.

Example scenarioB :
  verdicts newWindow [300; 10] = [(ReasonShift, true); (ReasonOutOfWindow, false)]
  /\ offset (runAll newWindow [300]) = 45.
Proof. vm_compute. split; reflexivity. Qed.

Example scenarioD :
  verdicts newWindow [255; 255; 256; 0]
  = [(ReasonFirst, true); (ReasonReuse, false); (ReasonShift, true);
     (ReasonOutOfWindow, false)]
  /\ offset (runAll newWindow [255; 255; 256]) = 1.
Proof. vm_compute. split; reflexivity. Qed.

Example scenarioE :
  CheckNonce newWindow 500 = (ReasonShift, true, newWindow).
Proof. vm_compute. reflexivity. Qed.

(** ** The claims *)

(** Claim C1 says that along every sequence of CheckAndSetNonce calls on a
    fresh window the offset never decreases, whatever uint64 nonces are
    passed.  The code does not keep that: the call with the largest nonce
    2^64 - 1 moves the offset to 2^64 - 256, where [offset + windowSize]
    wraps to 0, and the next call with nonce 2^64 - 256 takes the shift branch
    and moves the offset back to 2^64 - 511.
    ([offsets_nondecreasing_below_max] is the property for sequences that
    never pass the largest nonce.) *)
Theorem offset_decreases_after_wrap :
  map offset (windows newWindow [2 ^ 64 - 1; 2 ^ 64 - 256])
  = [0; 2 ^ 64 - 256; 2 ^ 64 - 511]
  /\ verdicts newWindow [2 ^ 64 - 1; 2 ^ 64 - 256]
     = [(ReasonShift, true); (ReasonShift, true)]
  /\ offset (runAll newWindow [2 ^ 64 - 1; 2 ^ 64 - 256])
     < offset (runAll newWindow [2 ^ 64 - 1]).
Proof. vm_compute. repeat split; reflexivity. Qed.

(** Claim C2 says that a nonce is accepted at most once while the offset has
    not passed it, and is rejected as out of window for ever once the offset
    has passed it.  The code does neither at the top of the uint64 range:
    two calls in a row with nonce 2^64 - 1 on a fresh window are both accepted
    with reason Shift, the offset staying at 2^64 - 256; and the nonce
    2^64 - 300, rejected as out of window after the first call, is accepted
    as First once the call with 2^64 - 256 has moved the offset back.
    ([no_double_accept_below_max] and [stale_forever_below_max] are the
    properties for sequences that never pass the largest nonce.) *)
Theorem max_nonce_accepted_twice :
  verdicts newWindow [U64.max; U64.max] = [(ReasonShift, true); (ReasonShift, true)]
  /\ map offset (windows newWindow [U64.max; U64.max]) = [0; U64.max - 255; U64.max - 255]
  /\ verdicts newWindow [2 ^ 64 - 1; 2 ^ 64 - 300; 2 ^ 64 - 256; 2 ^ 64 - 300]
     = [(ReasonShift, true); (ReasonOutOfWindow, false); (ReasonShift, true);
        (ReasonFirst, true)].
Proof. vm_compute. repeat split; reflexivity. Qed.

(** Claim C3: for a 256-bit value x (four words in uint64 range) and a uint64
    amount a, shiftLeft x a is again a 256-bit value and stands for
    (x * 2^a) mod 2^256; for a >= 256 it is the all-zero value; and when a is
    a multiple of 64, where the carry expression shifts by the full word
    width, word j of the result is word j + a/64 of x, or 0 past the last
    word. *)
Theorem shiftLeft_correct (x : Int256) (a : Z) :
  wf256 x -> U64.inRange a ->
  wf256 (shiftLeft x a)
  /\ value (shiftLeft x a) = (value x * 2 ^ a) mod 2 ^ 256
  /\ (256 <= a -> shiftLeft x a = zero256)
  /\ (a mod 64 = 0 ->
      forall j, 0 <= j < 4 ->
        word (shiftLeft x a) j = if j + a / 64 <? 4 then word x (j + a / 64) else 0).
Proof.
  intros Hx [Ha _]. repeat split; try apply (shiftLeft_wf x a Hx Ha).
  - now apply shiftLeft_value.
  - now apply shiftLeft_overflow.
  - intros Hb j Hj. rewrite shiftLeft_steps, Hb.
    assert (Hk : 0 <= a / 64) by (apply Z.div_pos; lia).
    rewrite bitShift_0 by now apply wordShift_wf.
    assert (Hc : j = 0 \/ j = 1 \/ j = 2 \/ j = 3) by lia.
    assert (Hd : a / 64 = 0 \/ a / 64 = 1 \/ a / 64 = 2 \/ a / 64 = 3 \/ 4 <= a / 64) by lia.
    destruct Hd as [-> |[-> |[-> |[-> | Hd]]]].
    1-4: destruct Hc as [-> |[-> |[-> | ->]]]; reflexivity.
    replace (wordShift x (a / 64)) with zero256.
    + destruct (Z.ltb_spec (j + a / 64) 4); [lia|].
      destruct Hc as [-> |[-> |[-> | ->]]]; reflexivity.
    + destruct (a / 64) as [|[[[]|[]|]|[[]|[]|]|]|]; try lia; reflexivity.
Qed.

Lemma shiftLeft_correct_witness :
  wf256 (mkInt256 1 (2 ^ 63) 5 (2 ^ 64 - 1)) /\ U64.inRange 64 /\
  value (shiftLeft (mkInt256 1 (2 ^ 63) 5 (2 ^ 64 - 1)) 64)
  = (value (mkInt256 1 (2 ^ 63) 5 (2 ^ 64 - 1)) * 2 ^ 64) mod 2 ^ 256.
Proof.
  assert (Hx : wf256 (mkInt256 1 (2 ^ 63) 5 (2 ^ 64 - 1))) by (vm_compute; intuition discriminate).
  assert (Ha : U64.inRange 64) by (vm_compute; intuition discriminate).
  split; [exact Hx|]. split; [exact Ha|].
  exact (proj1 (proj2 (shiftLeft_correct _ _ Hx Ha))).
Defined.

(** Claim C4: for a window and a nonce n with n >= offset + 256,
    CheckAndSetNonce returns (Shift, true), the new offset is n - 256 + 1,
    the position n - newOffset is 255, and the new bitmap is the old one
    shifted by newOffset - offset with exactly bit 255 set on top: that bit is
    1 after the call and 0 in the shifted bitmap, and every other position q
    holds the old bit q + shift, or 0 when that lies past the old window.
    On the fresh window, nonce 300 gives (Shift, true) and offset 45. *)
Theorem CheckAndSetNonce_above_window :
  (forall (w : SlidingWindow) (n : Z),
      wfWindow w -> U64.inRange n -> offset w + 256 <= n ->
      let r := CheckAndSetNonce w n in
      let shift := n - 256 + 1 - offset w in
      verdict r = (ReasonShift, true)
      /\ offset (after r) = n - 256 + 1
      /\ n - offset (after r) = 255
      /\ bitmap (after r) = setBit (shiftLeft (bitmap w) shift) (n - offset (after r))
      /\ isBitSet (bitmap (after r)) 255 = true
      /\ isBitSet (shiftLeft (bitmap w) shift) 255 = false
      /\ (forall q, 0 <= q < 255 ->
            isBitSet (bitmap (after r)) q
            = if q + shift <? 256 then isBitSet (bitmap w) (q + shift) else false))
  /\ verdict (CheckAndSetNonce newWindow 300) = (ReasonShift, true)
  /\ offset (after (CheckAndSetNonce newWindow 300)) = 45.
Proof.
  split; [|vm_compute; split; reflexivity].
  intros w n [Ho Hb] Hn Hab r shift. subst r shift.
  rewrite CheckAndSetNonce_exact by range.
  unfold classifyAndCommit.
  destruct (Z.ltb_spec n (offset w)) as [Hlt|Hge]; [lia|].
  replace (n >=? offset w + windowSize) with true
    by (symmetry; rewrite Z.geb_leb; apply Z.leb_le; range).
  cbn [verdict after fst snd offset bitmap]. unfold windowSize.
  replace (n - (n - 256 + 1)) with 255 by lia.
  repeat split.
  - rewrite isBitSet_setBit by lia. reflexivity.
  - rewrite isBitSet_shiftLeft by (trivial; range).
    destruct (Z.ltb_spec (255 + (n - 256 + 1 - offset w)) 256); [lia | reflexivity].
  - intros q Hq. rewrite isBitSet_setBit by lia.
    destruct (Z.eqb_spec q 255); [lia|].
    apply isBitSet_shiftLeft; trivial; range.
Qed.

Lemma CheckAndSetNonce_above_window_witness :
  wfWindow newWindow /\ U64.inRange 300 /\ offset newWindow + 256 <= 300 /\
  offset (after (CheckAndSetNonce newWindow 300)) = 300 - 256 + 1.
Proof.
  assert (Hw : wfWindow newWindow) by (vm_compute; intuition discriminate).
  assert (Hn : U64.inRange 300) by (vm_compute; intuition discriminate).
  assert (Hab : offset newWindow + 256 <= 300) by (vm_compute; discriminate).
  repeat (split; [assumption|]).
  exact (proj1 (proj2 (proj1 CheckAndSetNonce_above_window newWindow 300 Hw Hn Hab))).
Defined.

(** Claim C5: CheckNonce leaves the offset and the bitmap as they were, and
    k calls of CheckNonce in a row with the same nonce leave the window as it
    was and return k times the same (Reason, bool) pair. *)
Theorem CheckNonce_no_mutation (w : SlidingWindow) (n : Z) :
  offset (after (CheckNonce w n)) = offset w
  /\ bitmap (after (CheckNonce w n)) = bitmap w
  /\ forall k : nat,
       snd (peeks k w n) = w
       /\ fst (peeks k w n) = repeat (verdict (CheckNonce w n)) k.
Proof.
  assert (H : after (CheckNonce w n) = w).
  { unfold CheckNonce.
    destruct (n <? offset w); trivial.
    destruct (n >=? U64.add (offset w) windowSize); trivial.
    cbn zeta. destruct (isBitSet _ _); reflexivity. }
  rewrite H. repeat split.
  - induction k as [|k IH]; cbn [peeks]; trivial.
    rewrite H. destruct (peeks k w n). exact IH.
  - induction k as [|k IH]; cbn [peeks repeat]; trivial.
    rewrite H. destruct (peeks k w n). cbn [fst] in *. now rewrite IH.
Qed.

(** Claim C6: on the same window and nonce, CheckNonce returns the
    (Reason, bool) pair that CheckAndSetNonce returns, and leaves the window
    untouched. *)
Theorem CheckNonce_agrees (w : SlidingWindow) (n : Z) :
  verdict (CheckNonce w n) = verdict (CheckAndSetNonce w n)
  /\ after (CheckNonce w n) = w.
Proof.
  unfold CheckNonce, CheckAndSetNonce.
  destruct (n <? offset w); [split; reflexivity|].
  destruct (n >=? U64.add (offset w) windowSize); [split; reflexivity|].
  cbn zeta. destruct (isBitSet _ _); split; reflexivity.
Qed.

(** Claim C7: the pair returned by CheckAndSetNonce, and the pair returned
    by CheckNonce, is one of (First, true), (Reuse, false), (Shift, true),
    (OutOfWindow, false); the boolean is the one the reason stands for. *)
Theorem verdict_in_table (w : SlidingWindow) (n : Z) :
  In (verdict (CheckAndSetNonce w n)) verdictTable
  /\ In (verdict (CheckNonce w n)) verdictTable
  /\ accepted (CheckAndSetNonce w n)
     = match reason (CheckAndSetNonce w n) with
       | ReasonFirst | ReasonShift => true
       | ReasonReuse | ReasonOutOfWindow => false
       end
  /\ accepted (CheckNonce w n)
     = match reason (CheckNonce w n) with
       | ReasonFirst | ReasonShift => true
       | ReasonReuse | ReasonOutOfWindow => false
       end.
Proof.
  unfold CheckNonce, CheckAndSetNonce, verdictTable.
  destruct (n <? offset w); [cbn; tauto|].
  destruct (n >=? U64.add (offset w) windowSize); [cbn; tauto|].
  cbn zeta. destruct (isBitSet _ _); cbn; tauto.
Qed.

(** Claim C8: for positions p and q in [0, 256), the bit p of setBit x p is
    set, and for q different from p the bit q of setBit x p is the bit q of
    x. *)
Theorem setBit_isBitSet (x : Int256) (p q : Z) :
  0 <= p < 256 -> 0 <= q < 256 ->
  isBitSet (setBit x p) p = true
  /\ (q <> p -> isBitSet (setBit x p) q = isBitSet x q).
Proof.
  intros Hp Hq. split.
  - rewrite isBitSet_setBit by assumption. now rewrite Z.eqb_refl.
  - intros Hne. rewrite isBitSet_setBit by assumption.
    destruct (Z.eqb_spec q p); [contradiction | reflexivity].
Qed.

Lemma setBit_isBitSet_witness :
  (0 <= 70 < 256) /\ (0 <= 6 < 256) /\
  isBitSet (setBit zero256 70) 70 = true
  /\ (6 <> 70 -> isBitSet (setBit zero256 70) 6 = isBitSet zero256 6).
Proof.
  assert (Hp : 0 <= 70 < 256) by lia.
  assert (Hq : 0 <= 6 < 256) by lia.
  split; [exact Hp|]. split; [exact Hq|].
  exact (setBit_isBitSet zero256 70 6 Hp Hq).
Defined.

(** Claim C9: a CheckAndSetNonce call that returns (OutOfWindow, false) or
    (Reuse, false) leaves the window, offset and bitmap, as it was. *)
Theorem rejection_no_mutation (w : SlidingWindow) (n : Z) :
  verdict (CheckAndSetNonce w n) = (ReasonOutOfWindow, false)
  \/ verdict (CheckAndSetNonce w n) = (ReasonReuse, false) ->
  after (CheckAndSetNonce w n) = w.
Proof.
  unfold CheckAndSetNonce.
  destruct (n <? offset w); [reflexivity|].
  destruct (n >=? U64.add (offset w) windowSize);
    [cbn; intros [H|H]; discriminate|].
  cbn zeta. destruct (isBitSet _ _); [reflexivity|].
  cbn; intros [H|H]; discriminate.
Qed.

Lemma rejection_no_mutation_witness :
  (verdict (CheckAndSetNonce (runAll newWindow [300; 50]) 50) = (ReasonOutOfWindow, false)
   \/ verdict (CheckAndSetNonce (runAll newWindow [300; 50]) 50) = (ReasonReuse, false))
  /\ after (CheckAndSetNonce (runAll newWindow [300; 50]) 50) = runAll newWindow [300; 50].
Proof.
  assert (H : verdict (CheckAndSetNonce (runAll newWindow [300; 50]) 50) = (ReasonOutOfWindow, false)
   \/ verdict (CheckAndSetNonce (runAll newWindow [300; 50]) 50) = (ReasonReuse, false))
    by (right; vm_compute; reflexivity).
  split; [exact H|].
  exact (rejection_no_mutation _ _ H).
Defined.

(** Claim C10: when offset < 2^64 - 256, one CheckAndSetNonce call with a
    uint64 nonce n computes what the algorithm over unbounded integers
    computes: the reason is OutOfWindow exactly when n < offset and Shift
    exactly when n >= offset + 256; in between, the bit at position
    n - offset is tested; every wrapped sum, difference and truncation of the
    call has its exact value; and the offset does not decrease. *)
Theorem no_overflow_classification (w : SlidingWindow) (n : Z) :
  U64.inRange (offset w) -> offset w < 2 ^ 64 - 256 -> U64.inRange n ->
  let r := CheckAndSetNonce w n in
  r = classifyAndCommit w n
  /\ (reason r = ReasonOutOfWindow <-> n < offset w)
  /\ (reason r = ReasonShift <-> offset w + 256 <= n)
  /\ (offset w <= n < offset w + 256 ->
      r = if isBitSet (bitmap w) (n - offset w)
          then (ReasonReuse, false, w)
          else (ReasonFirst, true, mkWindow (offset w) (setBit (bitmap w) (n - offset w))))
  /\ U64.add (offset w) windowSize = offset w + 256
  /\ (offset w + 256 <= n ->
      U64.add (U64.sub n windowSize) 1 = n - 256 + 1
      /\ U64.sub (n - 256 + 1) (offset w) = n - 256 + 1 - offset w
      /\ U8.ofU64 (U64.sub n (n - 256 + 1)) = 255)
  /\ (offset w <= n < offset w + 256 ->
      U8.ofU64 (U64.sub n (offset w)) = n - offset w)
  /\ offset w <= offset (after r).
Proof.
  intros Ho Hlt Hn r. subst r.
  assert (Hw : noOverflow w) by range.
  rewrite CheckAndSetNonce_exact by assumption.
  split; [reflexivity|].
  assert (Hadd : U64.add (offset w) windowSize = offset w + 256)
    by (apply add_exact; range).
  assert (Hshift : offset w + 256 <= n ->
      U64.add (U64.sub n windowSize) 1 = n - 256 + 1
      /\ U64.sub (n - 256 + 1) (offset w) = n - 256 + 1 - offset w
      /\ U8.ofU64 (U64.sub n (n - 256 + 1)) = 255).
  { intros H. rewrite (sub_exact n windowSize) by range.
    rewrite add_exact by range. rewrite !sub_exact by range.
    repeat split; try reflexivity. replace (n - (n - 256 + 1)) with 255 by lia. reflexivity. }
  assert (Hbit : offset w <= n < offset w + 256 ->
      U8.ofU64 (U64.sub n (offset w)) = n - offset w).
  { intros H. rewrite sub_exact by range. apply ofU64_exact. lia. }
  unfold classifyAndCommit.
  destruct (Z.ltb_spec n (offset w)) as [Hl|Hge].
  { cbn [reason after fst snd]. repeat split; trivial; try lia; try discriminate. }
  destruct (offset w + windowSize <=? n) eqn:E; rewrite Z.geb_leb, E.
  - apply Z.leb_le in E. cbn [reason after fst snd offset].
    repeat split; trivial; try range; try discriminate.
  - apply Z.leb_gt in E. cbn zeta.
    destruct (isBitSet (bitmap w) (n - offset w)); cbn [reason after fst snd offset];
      repeat split; trivial; try range; try discriminate.
Qed.

Lemma no_overflow_classification_witness :
  U64.inRange (offset (runAll newWindow [300])) /\
  offset (runAll newWindow [300]) < 2 ^ 64 - 256 /\
  U64.inRange 100 /\
  CheckAndSetNonce (runAll newWindow [300]) 100 = classifyAndCommit (runAll newWindow [300]) 100.
Proof.
  assert (Ho : U64.inRange (offset (runAll newWindow [300]))) by (vm_compute; intuition discriminate).
  assert (Hlt : offset (runAll newWindow [300]) < 2 ^ 64 - 256) by (vm_compute; reflexivity).
  assert (Hn : U64.inRange 100) by (vm_compute; intuition discriminate).
  repeat (split; [assumption|]).
  exact (proj1 (no_overflow_classification _ _ Ho Hlt Hn)).
Defined.

(** ** Further properties of the bitmap *)

Lemma value_inj x y : wf256 x -> wf256 y -> value x = value y -> x = y.
Proof.
  destruct x as [a0 a1 a2 a3], y as [b0 b1 b2 b3].
  unfold wf256, value, U64.inRange, U64.modulus. cbn [word0 word1 word2 word3].
  intros (A0 & A1 & A2 & A3) (B0 & B1 & B2 & B3) E.
  assert (a3 = b3) by lia. assert (a2 = b2) by lia.
  assert (a1 = b1) by lia. assert (a0 = b0) by lia. congruence.
Qed.

(** Shifting by a and then by b is shifting by a + b, as long as the sum is
    itself a uint64. *)
Theorem shiftLeft_compose (x : Int256) (a b : Z) :
  wf256 x -> U64.inRange a -> U64.inRange b -> U64.inRange (a + b) ->
  shiftLeft (shiftLeft x a) b = shiftLeft x (a + b).
Proof.
  intros Hx [Ha _] [Hb _] _.
  apply value_inj; auto using shiftLeft_wf.
  - apply shiftLeft_wf; trivial; lia.
  - rewrite !shiftLeft_value by (auto using shiftLeft_wf; lia).
    rewrite Z.mul_mod_idemp_l by lia.
    rewrite <- Z.mul_assoc, <- Z.pow_add_r by lia. reflexivity.
Qed.

(** Shifting by 0 gives the value back: the carry expressions then shift
    right by 64, which is 0 in Go. *)
Theorem shiftLeft_zero_amount (x : Int256) : wf256 x -> shiftLeft x 0 = x.
Proof.
  intros Hx. apply value_inj; auto using shiftLeft_wf.
  - apply shiftLeft_wf; trivial; lia.
  - rewrite shiftLeft_value by (trivial; lia).
    rewrite Z.mul_1_r. apply Z.mod_small, value_bound, Hx.
Qed.

Lemma int256_ext x y :
  (forall k, 0 <= k < 4 -> word x k = word y k) -> x = y.
Proof.
  destruct x as [a0 a1 a2 a3], y as [b0 b1 b2 b3]. intros H.
  pose proof (H 0 ltac:(lia)). pose proof (H 1 ltac:(lia)).
  pose proof (H 2 ltac:(lia)). pose proof (H 3 ltac:(lia)).
  cbn [word word0 word1 word2 word3] in *. congruence.
Qed.

Lemma word_setBit x p k :
  0 <= p < 256 -> 0 <= k < 4 ->
  word (setBit x p) k
  = if k =? p / 64 then Z.lor (word x k) (2 ^ (63 - p mod 64)) else word x k.
Proof.
  intros Hp Hk. pose proof (word_index p Hp).
  pose proof (Z.mod_pos_bound p 64 ltac:(lia)).
  unfold setBit. rewrite word_setWord, bit_index, bit_mask by lia.
  destruct (Z.eqb_spec k (p / 64)) as [->|]; reflexivity.
Qed.

(** Setting a bit twice is setting it once, bits can be set in either order,
    and setting a bit that is set changes nothing. *)
Theorem setBit_algebra (x : Int256) (p q : Z) :
  0 <= p < 256 -> 0 <= q < 256 ->
  setBit (setBit x p) p = setBit x p
  /\ setBit (setBit x p) q = setBit (setBit x q) p
  /\ (isBitSet x p = true -> setBit x p = x).
Proof.
  intros Hp Hq. repeat split.
  - apply int256_ext. intros k Hk. rewrite !word_setBit by assumption.
    destruct (k =? p / 64); trivial.
    now rewrite <- Z.lor_assoc, Z.lor_diag.
  - apply int256_ext. intros k Hk. rewrite !word_setBit by assumption.
    destruct (k =? p / 64), (k =? q / 64); trivial.
    rewrite <- !Z.lor_assoc. f_equal. apply Z.lor_comm.
  - intros Hset. apply int256_ext. intros k Hk. rewrite word_setBit by assumption.
    destruct (Z.eqb_spec k (p / 64)) as [->|]; trivial.
    rewrite isBitSet_word in Hset by assumption.
    pose proof (Z.mod_pos_bound p 64 ltac:(lia)).
    apply Z.bits_inj'. intros j Hj.
    rewrite Z.lor_spec, Z.pow2_bits_eqb by lia.
    destruct (Z.eqb_spec (63 - p mod 64) j) as [<-|]; [rewrite Hset|]; auto using orb_false_r.
Qed.

(** ** Further properties of the window *)





(* The three branches of CheckAndSetNonce for every window, with the exact
   value of each wrapped expression. *)
Lemma CheckAndSetNonce_branches w n :
  U64.inRange (offset w) -> U64.inRange n ->
  (n < offset w /\ CheckAndSetNonce w n = (ReasonOutOfWindow, false, w))
  \/ (offset w <= n /\ 255 <= n
      /\ CheckAndSetNonce w n
         = (ReasonShift, true,
            mkWindow (n - 255)
              (setBit (shiftLeft (bitmap w) (U64.sub (n - 255) (offset w))) 255)))
  \/ (offset w <= n < offset w + 256
      /\ CheckAndSetNonce w n
         = if isBitSet (bitmap w) (n - offset w)
           then (ReasonReuse, false, w)
           else (ReasonFirst, true,
                 mkWindow (offset w) (setBit (bitmap w) (n - offset w)))).
Proof.
  intros Ho Hn. unfold CheckAndSetNonce.
  destruct (Z.ltb_spec n (offset w)) as [Hlt|Hge]; [left; split; trivial|right].
  assert (Hsum : U64.add (offset w) windowSize = offset w + 256
                 \/ (U64.modulus - 256 <= offset w
                     /\ U64.add (offset w) windowSize = offset w + 256 - U64.modulus)).
  { destruct (Z.lt_ge_cases (offset w) (U64.modulus - 256)).
    - left. apply add_exact. range.
    - right. split; trivial. unfold U64.add, U64.wrap. symmetry.
      apply Z.mod_unique_pos with (q := 1); range. }
  destruct (U64.add (offset w) windowSize <=? n) eqn:E; rewrite Z.geb_leb, E.
  - left. apply Z.leb_le in E.
    assert (H255 : 255 <= n) by (destruct Hsum as [Hs|[Ht Hs]]; range).
    split; [trivial|]. split; [trivial|].
    cbn [set_offset set_bitmap offset bitmap].
    assert (Hnew : U64.add (U64.sub n windowSize) 1 = n - 255).
    { unfold U64.add, U64.sub, U64.wrap.
      rewrite Z.add_mod_idemp_l by (unfold U64.modulus; lia).
      replace (n - windowSize + 1) with (n - 255) by range.
      apply Z.mod_small. range. }
    rewrite Hnew. rewrite (sub_exact n (n - 255)) by range.
    replace (n - (n - 255)) with 255 by lia. reflexivity.
  - right. apply Z.leb_gt in E.
    assert (Hin : n < offset w + 256) by (destruct Hsum as [Hs|[Ht Hs]]; range).
    split; [lia|]. cbn zeta.
    rewrite sub_exact by range. rewrite ofU64_exact by lia. reflexivity.
Qed.

Lemma call_marks_nonce (w : SlidingWindow) (n : Z) :
  wfWindow w -> U64.inRange n ->
  seen (after (CheckAndSetNonce w n)) n.
Proof.
  intros [Ho Hb] Hn. unfold seen.
  destruct (CheckAndSetNonce_branches w n Ho Hn) as [[Hlt ->]|[(Hge & H255 & ->)|[Hin ->]]].
  - left. exact Hlt.
  - right. cbn [after snd offset bitmap]. split; [range|].
    replace (n - (n - 255)) with 255 by lia.
    rewrite isBitSet_setBit by lia. reflexivity.
  - right. destruct (isBitSet (bitmap w) (n - offset w)) eqn:B;
      cbn [after snd offset bitmap]; (split; [range|]); trivial.
    rewrite isBitSet_setBit by lia. now rewrite Z.eqb_refl.
Qed.


Lemma peek_verdict w n : verdict (CheckNonce w n) = verdict (CheckAndSetNonce w n).
Proof.
  unfold CheckNonce, CheckAndSetNonce.
  destruct (n <? offset w); trivial.
  destruct (n >=? U64.add (offset w) windowSize); trivial.
  cbn zeta. destruct (isBitSet _ _); reflexivity.
Qed.

(** Below the top of the range, the nonce a call accepted is answered
    (Reuse, false) by the next call, and by CheckNonce, on the window that
    call left. *)
Theorem accepted_then_replayed (w : SlidingWindow) (n : Z) :
  sound w -> belowMax n ->
  accepted (CheckAndSetNonce w n) = true ->
  verdict (CheckAndSetNonce (after (CheckAndSetNonce w n)) n) = (ReasonReuse, false)
  /\ verdict (CheckNonce (after (CheckAndSetNonce w n)) n) = (ReasonReuse, false).
Proof.
  intros Hw Hn Hacc.
  destruct (CheckAndSetNonce_sound w n Hw Hn) as [[Ho' Hb'] Hle].
  assert (Hs : seen (after (CheckAndSetNonce w n)) n).
  { revert Hacc. rewrite CheckAndSetNonce_exact by (try apply Hw; range).
    now apply accepted_seen. }
  assert (Hge : offset (after (CheckAndSetNonce w n)) <= n).
  { destruct Hw as [Ho Hb].
    destruct (CheckAndSetNonce_branches w n ltac:(range) ltac:(range))
      as [[Hlt E]|[(Hge & H255 & E)|[Hin E]]]; rewrite E in *.
    - discriminate.
    - cbn. lia.
    - destruct (isBitSet (bitmap w) (n - offset w)); cbn; lia. }
  destruct Hs as [Hs|[Hin Hbit]]; [lia|].
  assert (E : verdict (CheckAndSetNonce (after (CheckAndSetNonce w n)) n) = (ReasonReuse, false)).
  { rewrite CheckAndSetNonce_exact by (trivial; range).
    unfold classifyAndCommit.
    destruct (Z.ltb_spec n (offset (after (CheckAndSetNonce w n)))); [lia|].
    rewrite Z.geb_leb.
    destruct (Z.leb_spec (offset (after (CheckAndSetNonce w n)) + windowSize) n); [range|].
    now rewrite Hbit. }
  split; [exact E|]. now rewrite peek_verdict.
Qed.


Lemma marks_incl w h1 h2 : incl h1 h2 -> marks w h1 -> marks w h2.
Proof. intros Hi Hm k Hk Hb. apply Hi, Hm; assumption. Qed.

Lemma isBitSet_zero256 k : 0 <= k < 256 -> isBitSet zero256 k = false.
Proof.
  intros Hk. rewrite isBitSet_word by assumption.
  pose proof (word_index k Hk) as Hi.
  assert (Hc : k / 64 = 0 \/ k / 64 = 1 \/ k / 64 = 2 \/ k / 64 = 3) by lia.
  destruct Hc as [-> |[-> |[-> | ->]]]; apply Z.bits_0.
Qed.

Lemma marks_newWindow : marks newWindow [].
Proof.
  intros k Hk Hb. cbn [newWindow bitmap] in Hb.
  rewrite isBitSet_zero256 in Hb by exact Hk. discriminate.
Qed.

Lemma marks_step w m hist :
  sound w -> belowMax m -> marks w hist ->
  marks (after (classifyAndCommit w m)) (m :: hist).
Proof.
  intros [Ho Hb] Hm Hmk. unfold classifyAndCommit.
  destruct (Z.ltb_spec m (offset w)) as [Hlt|Hge]; cbn [after snd].
  { eapply marks_incl; [|exact Hmk]. apply incl_tl, incl_refl. }
  destruct (offset w + windowSize <=? m) eqn:E; rewrite Z.geb_leb, E; cbn [after snd].
  - apply Z.leb_le in E. intros k Hk. cbn [offset bitmap].
    replace (m - (m - windowSize + 1)) with 255 by range.
    rewrite isBitSet_setBit by range.
    destruct (Z.eqb_spec k 255) as [->|Hne]; [intros _; left; range|].
    rewrite isBitSet_shiftLeft by (trivial; range).
    destruct (Z.ltb_spec (k + (m - windowSize + 1 - offset w)) 256) as [L|L]; [|discriminate].
    intros Hbit. right.
    replace (m - windowSize + 1 + k) with (offset w + (k + (m - windowSize + 1 - offset w))) by lia.
    apply Hmk; trivial. range.
  - apply Z.leb_gt in E.
    destruct (isBitSet (bitmap w) (m - offset w)) eqn:B; cbn [after snd].
    { eapply marks_incl; [|exact Hmk]. apply incl_tl, incl_refl. }
    intros k Hk. cbn [offset bitmap]. rewrite isBitSet_setBit by range.
    destruct (Z.eqb_spec k (m - offset w)) as [->|Hne]; [intros _; left; lia|].
    intros Hbit. right. now apply Hmk.
Qed.

Lemma marks_runAll ns : forall w hist,
  sound w -> Forall belowMax ns -> marks w hist -> marks (runAll w ns) (ns ++ hist).
Proof.
  unfold runAll. induction ns as [|m ns IH]; intros w hist Hw Hns Hmk; cbn [fold_left app]; trivial.
  inversion Hns as [|? ? Hm Hrest]; subst.
  eapply marks_incl; [|apply IH with (hist := m :: hist); trivial].
  - intros x Hx. apply in_app_or in Hx. destruct Hx as [Hx|[<-|Hx]].
    + right. apply in_or_app. now left.
    + now left.
    + right. apply in_or_app. now right.
  - now apply CheckAndSetNonce_sound.
  - rewrite CheckAndSetNonce_exact by (try apply Hw; range). now apply marks_step.
Qed.

(** No false rejection: after any calls on a fresh window with nonces below
    2^64 - 1, a nonce that was never passed and is not below the offset is
    accepted. *)
Theorem fresh_nonce_accepted (ns : list Z) (n : Z) :
  Forall belowMax ns -> belowMax n -> ~ In n ns ->
  offset (runAll newWindow ns) <= n ->
  accepted (CheckAndSetNonce (runAll newWindow ns) n) = true.
Proof.
  intros Hns Hn Hnew Hge.
  destruct (runAll_sound ns newWindow sound_newWindow Hns) as [[Ho Hb] _].
  pose proof (marks_runAll ns newWindow [] sound_newWindow Hns marks_newWindow) as Hmk.
  rewrite app_nil_r in Hmk.
  rewrite CheckAndSetNonce_exact by (trivial; range).
  unfold classifyAndCommit.
  destruct (Z.ltb_spec n (offset (runAll newWindow ns))); [lia|].
  destruct (n >=? offset (runAll newWindow ns) + windowSize) eqn:E; [reflexivity|].
  rewrite Z.geb_leb in E. apply Z.leb_gt in E.
  destruct (isBitSet (bitmap (runAll newWindow ns)) (n - offset (runAll newWindow ns))) eqn:B;
    [|reflexivity].
  exfalso. apply Hnew.
  replace n with (offset (runAll newWindow ns) + (n - offset (runAll newWindow ns))) by lia.
  apply Hmk; trivial. range.
Qed.

Lemma classifyAndCommit_offset w n :
  offset (after (classifyAndCommit w n)) = Z.max (offset w) (n - 255).
Proof.
  unfold classifyAndCommit.
  destruct (Z.ltb_spec n (offset w)); cbn [after snd]; [lia|].
  destruct (offset w + windowSize <=? n) eqn:E; rewrite Z.geb_leb, E; cbn [after snd offset].
  - apply Z.leb_le in E. range.
  - apply Z.leb_gt in E. destruct (isBitSet _ _); cbn [after snd offset]; range.
Qed.

Lemma runAll_offset ns : forall w,
  sound w -> Forall belowMax ns ->
  offset (runAll w ns) = Z.max (offset w) (highest ns - 255).
Proof.
  unfold runAll. induction ns as [|m ns IH]; intros w Hw Hns; cbn [fold_left highest fold_right].
  - destruct Hw as [Ho _]. range.
  - inversion Hns as [|? ? Hm Hrest]; subst.
    rewrite IH by (trivial; now apply CheckAndSetNonce_sound).
    rewrite CheckAndSetNonce_exact by (try apply Hw; range).
    rewrite classifyAndCommit_offset. fold (highest ns). lia.
Qed.

(** After any calls on a fresh window with nonces below 2^64 - 1, the offset
    is the highest nonce passed minus 255, or 0 when that is negative. *)
Theorem offset_follows_highest (ns : list Z) :
  Forall belowMax ns ->
  offset (runAll newWindow ns) = Z.max 0 (highest ns - 255).
Proof. intros Hns. now rewrite runAll_offset by (trivial; apply sound_newWindow). Qed.

(** ** Reason.String and argsToInt *)

Lemma store_app done k x :
  store (done ++ repeat 0 (S k)) (length done) x = Some ((done ++ [x]) ++ repeat 0 k).
Proof.
  unfold store. rewrite length_app. cbn [repeat length].
  destruct (Nat.ltb_spec (length done) (length done + S (length (repeat 0 k)))) as [_|H]; [|lia].
  f_equal. rewrite firstn_app, Nat.sub_diag, firstn_all. cbn [firstn].
  rewrite app_nil_r, <- app_assoc. cbn [app]. do 2 f_equal.
  rewrite skipn_app, skipn_all2 by lia.
  replace (S (length done) - length done)%nat with 1%nat by lia. reflexivity.
Qed.

Lemma argsLoop_result P rest : forall done k,
  (length rest <= k)%nat ->
  argsLoop P rest (done ++ repeat 0 k) (length done)
  = Some (done ++ parsed P rest ++ repeat 0 (k - length (parsed P rest))).
Proof.
  induction rest as [|s rest IH]; intros done k Hk; cbn [argsLoop parsed flat_map].
  - cbn [app length]. now rewrite Nat.sub_0_r.
  - cbn [length] in Hk. fold (parsed P rest). destruct (P s) as [x|].
    + destruct k as [|k]; [lia|]. rewrite store_app.
      replace (S (length done)) with (length (done ++ [x]))
        by (rewrite length_app; cbn; lia).
      rewrite IH by lia. rewrite <- app_assoc. reflexivity.
    + cbn [app]. apply IH. lia.
Qed.

Lemma parsed_length P l : (length (parsed P l) <= length l)%nat.
Proof.
  induction l as [|s l IH]; cbn [parsed flat_map length]; trivial.
  fold (parsed P l). destruct (P s); rewrite ?length_app; cbn [length app]; lia.
Qed.

Lemma argsToInt_eq (P : string -> option Z) (prog : string) (rest : list string) :
  argsToInt P (prog :: rest)
  = Some (parsed P rest ++ repeat 0 (length rest - length (parsed P rest))).
Proof.
  unfold argsToInt. cbn [length tl]. destruct rest as [|s rest]; [reflexivity|].
  replace (S (length (s :: rest)) <? 2)%nat with false
    by (symmetry; apply Nat.ltb_ge; cbn; lia).
  replace (S (length (s :: rest)) - 1)%nat with (length (s :: rest)) by lia.
  apply (argsLoop_result P (s :: rest) [] (length (s :: rest))). lia.
Qed.

Lemma argsToInt_length (P : string -> option Z) (rest : list string) :
  length (parsed P rest ++ repeat 0 (length rest - length (parsed P rest)))
  = length rest.
Proof.
  pose proof (parsed_length P rest). rewrite length_app, repeat_length. lia.
Qed.

(** ** blurString *)

Lemma blurLoop_acc pos s : forall p a last,
  blurLoop pos p s a last = a ++ blurLoop pos p s [] last.
Proof.
  induction s as [|b s IH]; intros p a last; cbn [blurLoop].
  - now rewrite app_nil_r.
  - destruct (p =? pos); [|destruct (negb (b =? last)%char)]; cbn zeta;
      rewrite IH; symmetry; rewrite IH; cbn [app]; now rewrite <- ?app_assoc.
Qed.

Lemma uncolor_one l : uncolor (Ansi.one ++ l) = uncolor l.
Proof. reflexivity. Qed.
Lemma uncolor_zero l : uncolor (Ansi.zero ++ l) = uncolor l.
Proof. reflexivity. Qed.
Lemma uncolor_red l : uncolor (Ansi.red ++ l) = uncolor l.
Proof. reflexivity. Qed.
Lemma uncolor_end l : uncolor (Ansi.end_ ++ l) = uncolor l.
Proof. reflexivity. Qed.

Lemma uncolor_color b l : uncolor (color b ++ l) = uncolor l.
Proof.
  unfold color. destruct (b =? "1")%char; [apply uncolor_one|].
  destruct (b =? "0")%char; [apply uncolor_zero | reflexivity].
Qed.

Lemma uncolor_byte b l : b <> Ansi.esc -> uncolor (b :: l) = b :: uncolor l.
Proof.
  intros Hb. unfold uncolor. cbn [uncolorFrom].
  destruct (Ascii.eqb_spec b Ansi.esc); [contradiction | reflexivity].
Qed.

Lemma uncolor_blurLoop pos s : forall p last l,
  noEscape s -> uncolor (blurLoop pos p s [] last ++ l) = s ++ uncolor l.
Proof.
  induction s as [|b s IH]; intros p last l Hs; cbn [blurLoop]; trivial.
  assert (Hb : b <> Ansi.esc) by (intros ->; apply Hs; now left).
  assert (Hs' : noEscape s) by (intros H; apply Hs; now right).
  destruct (p =? pos); [|destruct (negb (b =? last)%char)]; cbn zeta;
    rewrite blurLoop_acc; cbn [app]; rewrite <- ?app_assoc.
  - rewrite uncolor_end, uncolor_red. cbn [app]. rewrite uncolor_byte by assumption.
    rewrite uncolor_end, IH by assumption. reflexivity.
  - rewrite uncolor_end, uncolor_color. cbn [app]. rewrite uncolor_byte by assumption.
    now rewrite IH.
  - rewrite uncolor_byte by assumption. now rewrite IH.
Qed.


Lemma blurString_cons c s pos :
  blurString (c :: s) pos
  = Some (color c ++ blurLoop pos 0 (c :: s) [] c ++ Ansi.end_).
Proof. unfold blurString. cbn zeta. now rewrite blurLoop_acc, <- app_assoc. Qed.

(** blurString panics exactly on the empty string; on a string without an
    ESC byte its result, with the escape sequences taken out, is the string
    itself, whatever the position. *)
Theorem blurString_uncolor (s : list ascii) (bitPos : Z) :
  (blurString s bitPos = None <-> s = [])
  /\ (noEscape s -> forall out, blurString s bitPos = Some out -> uncolor out = s).
Proof.
  split.
  - destruct s; cbn [blurString]; split; intros H; try reflexivity; discriminate.
  - intros Hs out. destruct s as [|c s]; [discriminate|].
    rewrite blurString_cons. intros H.
    assert (E : out = color c ++ blurLoop bitPos 0 (c :: s) [] c ++ Ansi.end_) by congruence.
    rewrite E, uncolor_color, uncolor_blurLoop by assumption.
    change (uncolor Ansi.end_) with (@nil ascii). apply app_nil_r.
Qed.



Lemma blurLoop_highlight pos s : forall p last,
  noEscape s -> p <= pos < p + Z.of_nat (length s) ->
  exists pre post,
    blurLoop pos p s [] last
    = pre ++ Ansi.end_ ++ Ansi.red ++ [nth (Z.to_nat (pos - p)) s "000"%char] ++ Ansi.end_ ++ post
    /\ (forall l, uncolor (pre ++ l) = firstn (Z.to_nat (pos - p)) s ++ uncolor l)
    /\ (forall l, uncolor (post ++ l) = skipn (S (Z.to_nat (pos - p))) s ++ uncolor l).
Proof.
  induction s as [|b s IH]; intros p last Hs Hp; cbn [length] in Hp; [lia|].
  assert (Hb : b <> Ansi.esc) by (intros ->; apply Hs; now left).
  assert (Hs' : noEscape s) by (intros H; apply Hs; now right).
  cbn [blurLoop]. destruct (Z.eqb_spec p pos) as [->|Hne].
  - exists [], (blurLoop pos (pos + 1) s [] "000"%char).
    rewrite Z.sub_diag. cbn [Z.to_nat nth firstn skipn app]. cbn zeta.
    rewrite blurLoop_acc. cbn [app]. rewrite <- !app_assoc. cbn [app].
    split; [reflexivity|]. split; [reflexivity|].
    intros l. now apply uncolor_blurLoop.
  - assert (Hn : Z.to_nat (pos - p) = S (Z.to_nat (pos - (p + 1)))) by lia.
    rewrite Hn. cbn [nth firstn skipn].
    destruct (negb (b =? last)%char); cbn zeta; rewrite blurLoop_acc;
      match goal with |- context [blurLoop pos (p + 1) s [] ?c] =>
        destruct (IH (p + 1) c Hs' ltac:(lia)) as (pre & post & E & Hpre & Hpost) end;
      rewrite E.
    + exists ((Ansi.end_ ++ color b) ++ b :: pre), post. cbn [app].
      split; [now rewrite <- !app_assoc|]. split; [|exact Hpost].
      intros l. rewrite <- !app_assoc. rewrite uncolor_end, uncolor_color.
      cbn [app]. rewrite uncolor_byte by assumption. now rewrite Hpre.
    + exists (b :: pre), post. cbn [app].
      split; [reflexivity|]. split; [|exact Hpost].
      intros l. rewrite uncolor_byte by assumption. now rewrite Hpre.
Qed.

Lemma blurString_mark (s : list ascii) (pos : Z) :
  noEscape s -> 0 <= pos < Z.of_nat (length s) ->
  exists pre post,
    blurString s pos
    = Some (pre ++ Ansi.end_ ++ Ansi.red ++ [nth (Z.to_nat pos) s "000"%char]
                ++ Ansi.end_ ++ post)
    /\ uncolor pre = firstn (Z.to_nat pos) s
    /\ uncolor post = skipn (S (Z.to_nat pos)) s.
Proof.
  intros Hs Hp. destruct s as [|c s]; [cbn in Hp; lia|].
  destruct (blurLoop_highlight pos (c :: s) 0 c Hs ltac:(lia)) as (pre & post & E & Hpre & Hpost).
  rewrite Z.sub_0_r in *.
  exists (color c ++ pre), (post ++ Ansi.end_).
  rewrite blurString_cons, E. split; [|split].
  - f_equal. rewrite <- !app_assoc. reflexivity.
  - rewrite <- (app_nil_r (color c ++ pre)), <- !app_assoc, uncolor_color, Hpre.
    apply app_nil_r.
  - rewrite Hpost. apply app_nil_r.
Qed.

(** ** printWindow and main *)


Lemma format64b_length w : length (format64b w) = 64%nat.
Proof. unfold format64b. now rewrite length_map, length_seq. Qed.

Lemma format64b_nth w k d :
  (k < 64)%nat -> nth k (format64b w) d = digit (Z.testbit w (63 - Z.of_nat k)).
Proof.
  intros Hk. unfold format64b.
  rewrite nth_indep with (d' := digit (Z.testbit w (63 - Z.of_nat 0)))
    by (now rewrite length_map, length_seq).
  rewrite (map_nth (fun k => digit (Z.testbit w (63 - Z.of_nat k)))).
  now rewrite seq_nth.
Qed.

Lemma sprintBitmap_length x : length (sprintBitmap x) = 256%nat.
Proof. unfold sprintBitmap. now rewrite !length_app, !format64b_length. Qed.

Lemma sprintBitmap_nth x k d :
  0 <= k < 256 -> nth (Z.to_nat k) (sprintBitmap x) d = digit (isBitSet x k).
Proof.
  intros Hk. rewrite isBitSet_word by assumption. unfold sprintBitmap.
  assert (Hc : k / 64 = 0 \/ k / 64 = 1 \/ k / 64 = 2 \/ k / 64 = 3)
    by (pose proof (word_index k Hk); lia).
  assert (Hm : k mod 64 = k - 64 * (k / 64)) by (Z.div_mod_to_equations; lia).
  pose proof (Z.mod_pos_bound k 64 ltac:(lia)) as Hb.
  rewrite Hm in *. destruct Hc as [E|[E|[E|E]]]; rewrite E in *.
  - rewrite app_nth1 by (rewrite format64b_length; lia).
    rewrite format64b_nth by lia. do 2 f_equal. lia.
  - rewrite app_nth2 by (rewrite format64b_length; lia).
    rewrite format64b_length.
    rewrite app_nth1 by (rewrite format64b_length; lia).
    rewrite format64b_nth by lia. do 2 f_equal. lia.
  - do 2 (rewrite app_nth2 by (rewrite ?format64b_length; lia); rewrite format64b_length).
    rewrite app_nth1 by (rewrite format64b_length; lia).
    rewrite format64b_nth by lia. do 2 f_equal. lia.
  - do 3 (rewrite app_nth2 by (rewrite ?format64b_length; lia); rewrite format64b_length).
    rewrite format64b_nth by lia. do 2 f_equal. lia.
Qed.

Lemma format64b_noEscape w : noEscape (format64b w).
Proof.
  unfold noEscape, format64b. rewrite in_map_iff. intros (k & Hk & _).
  destruct (Z.testbit w (63 - Z.of_nat k)); discriminate.
Qed.

Lemma sprintBitmap_noEscape x : noEscape (sprintBitmap x).
Proof.
  unfold noEscape, sprintBitmap. rewrite !in_app_iff.
  intros [H|[H|[H|H]]]; exact (format64b_noEscape _ H).
Qed.

(** The bitmap is printed as 256 characters, and character k is 1 exactly
    when isBitSet holds at position k. *)
Theorem sprintBitmap_shows_bits (x : Int256) :
  length (sprintBitmap x) = 256%nat
  /\ forall k d, 0 <= k < 256 ->
       nth (Z.to_nat k) (sprintBitmap x) d = digit (isBitSet x k).
Proof. split; [apply sprintBitmap_length | intros; now apply sprintBitmap_nth]. Qed.

Lemma blurString_total s pos :
  s <> [] -> noEscape s -> exists out, blurString s pos = Some out /\ uncolor out = s.
Proof.
  intros Hne Hs. destruct s as [|c s]; [contradiction|].
  rewrite blurString_cons. eexists. split; [reflexivity|].
  rewrite uncolor_color, uncolor_blurLoop by assumption.
  change (uncolor Ansi.end_) with (@nil ascii). apply app_nil_r.
Qed.

Lemma sprintBitmap_nonempty x : sprintBitmap x <> [].
Proof.
  intros E. pose proof (sprintBitmap_length x) as H. rewrite E in H. discriminate.
Qed.

Lemma printWindow_total (w : SlidingWindow) (n : Z) :
  exists out, printWindow w n = Some out /\ uncolor out = sprintBitmap (bitmap w).
Proof.
  unfold printWindow.
  destruct (n <? offset w);
    apply blurString_total; auto using sprintBitmap_nonempty, sprintBitmap_noEscape.
Qed.




(** ** Names, arguments, and the theorems of the lemmas above *)

(** The printed name tells the reason: the four reasons have four different
    names, none of them Unknown; ReasonOutOfWindow prints as Small; every
    other value of the underlying integer prints as Unknown. *)
Theorem reasonString_names :
  (forall r s : Reason,
      reasonString (reasonCode r) = reasonString (reasonCode s) -> r = s)
  /\ (forall r : Reason, reasonString (reasonCode r) <> "Unknown"%string)
  /\ reasonString (reasonCode ReasonOutOfWindow) = "Small"%string
  /\ (forall c : Z, 4 <= c -> reasonString c = "Unknown"%string).
Proof.
  repeat split.
  - intros [] []; cbn; intros H; trivial; discriminate.
  - intros []; cbn; discriminate.
  - intros c Hc. destruct c as [|[[[]|[]|]|[[]|[]|]|]|]; try lia; reflexivity.
Qed.

(** argsToInt never panics.  Its result has one entry per argument after the
    program name: the arguments that parse, in order, then a 0 for each one
    that does not, since the slice is made for all of them and never cut. *)
Theorem argsToInt_result (P : string -> option Z) (prog : string) (rest : list string) :
  argsToInt P [] = Some []
  /\ argsToInt P (prog :: rest)
     = Some (parsed P rest ++ repeat 0 (length rest - length (parsed P rest)))
  /\ (forall r, argsToInt P (prog :: rest) = Some r -> length r = length rest).
Proof.
  split; [reflexivity|]. split; [apply argsToInt_eq|].
  intros r Hr. rewrite argsToInt_eq in Hr.
  assert (E : r = parsed P rest ++ repeat 0 (length rest - length (parsed P rest)))
    by congruence.
  rewrite E. apply argsToInt_length.
Qed.

(** After a call, for every window and nonce, the nonce is below the offset
    or it is less than 256 above it with its bit set. *)
Theorem nonce_marked_after_call (w : SlidingWindow) (n : Z) :
  wfWindow w -> U64.inRange n ->
  let w' := after (CheckAndSetNonce w n) in
  n < offset w'
  \/ (offset w' <= n < offset w' + 256
      /\ isBitSet (bitmap w') (n - offset w') = true).
Proof. apply call_marks_nonce. Qed.


(** A position inside the string marks that byte and no other: the result
    is a part that shows the bytes before it, the byte between the red and
    the end sequence, and a part that shows the bytes after it. *)
Theorem blurString_highlight (s : list ascii) (pos : Z) :
  noEscape s -> 0 <= pos < Z.of_nat (length s) ->
  exists pre post,
    blurString s pos
    = Some (pre ++ Ansi.end_ ++ Ansi.red ++ [nth (Z.to_nat pos) s "000"%char]
                ++ Ansi.end_ ++ post)
    /\ uncolor pre = firstn (Z.to_nat pos) s
    /\ uncolor post = skipn (S (Z.to_nat pos)) s.
Proof. apply blurString_mark. Qed.

(** printWindow never panics, and what it returns shows, with the escape
    sequences taken out, the 256 characters of the bitmap. *)
Theorem printWindow_shows_bitmap (w : SlidingWindow) (n : Z) :
  exists out, printWindow w n = Some out /\ uncolor out = sprintBitmap (bitmap w).
Proof. apply printWindow_total. Qed.

(** ** Instances *)

Lemma wf256_sample : wf256 (mkInt256 1 (2 ^ 63) 5 (2 ^ 64 - 1)).
Proof. unfold wf256; cbn; repeat split; range. Qed.

Lemma wfWindow_newWindow : wfWindow newWindow.
Proof. unfold wfWindow, wf256; cbn; repeat split; range. Qed.

Lemma noEscape_sample : noEscape (list_ascii_of_string "0110").
Proof. unfold noEscape; cbn; intuition discriminate. Qed.

Lemma shiftLeft_compose_witness :
  shiftLeft (shiftLeft (mkInt256 1 (2 ^ 63) 5 (2 ^ 64 - 1)) 70) 130
  = shiftLeft (mkInt256 1 (2 ^ 63) 5 (2 ^ 64 - 1)) (70 + 130).
Proof.
  apply (shiftLeft_compose _ 70 130 wf256_sample); range.
Defined.

Lemma shiftLeft_zero_amount_witness :
  shiftLeft (mkInt256 1 (2 ^ 63) 5 (2 ^ 64 - 1)) 0 = mkInt256 1 (2 ^ 63) 5 (2 ^ 64 - 1).
Proof. exact (shiftLeft_zero_amount _ wf256_sample). Defined.

Lemma setBit_algebra_witness :
  setBit (setBit zero256 70) 6 = setBit (setBit zero256 6) 70.
Proof.
  exact (proj1 (proj2 (setBit_algebra zero256 70 6 ltac:(lia) ltac:(lia)))).
Defined.

Lemma nonce_marked_after_call_witness :
  300 < offset (after (CheckAndSetNonce newWindow 300))
  \/ (offset (after (CheckAndSetNonce newWindow 300)) <= 300
        < offset (after (CheckAndSetNonce newWindow 300)) + 256
      /\ isBitSet (bitmap (after (CheckAndSetNonce newWindow 300)))
           (300 - offset (after (CheckAndSetNonce newWindow 300))) = true).
Proof.
  apply (nonce_marked_after_call newWindow 300 wfWindow_newWindow). range.
Defined.


Lemma accepted_then_replayed_witness :
  verdict (CheckAndSetNonce (after (CheckAndSetNonce newWindow 300)) 300)
  = (ReasonReuse, false).
Proof.
  refine (proj1 (accepted_then_replayed newWindow 300 sound_newWindow _ _)).
  - range.
  - vm_compute. reflexivity.
Defined.

Lemma fresh_nonce_accepted_witness :
  accepted (CheckAndSetNonce (runAll newWindow [300; 50; 299]) 100) = true.
Proof.
  apply fresh_nonce_accepted.
  - repeat constructor; range.
  - range.
  - cbn. intuition discriminate.
  - vm_compute. discriminate.
Defined.

Lemma offset_follows_highest_witness :
  offset (runAll newWindow [300; 10; 700]) = Z.max 0 (highest [300; 10; 700] - 255).
Proof. apply offset_follows_highest. repeat constructor; range. Defined.

Lemma offsets_nondecreasing_below_max_witness :
  Sorted Z.le (map offset (windows newWindow [300; 10; 700])).
Proof.
  apply offsets_nondecreasing_below_max; [apply sound_newWindow|].
  repeat constructor; range.
Defined.

Lemma no_double_accept_below_max_witness :
  accepted
    (CheckAndSetNonce (runAll (after (CheckAndSetNonce newWindow 300)) [10; 400]) 300)
  = false.
Proof.
  apply no_double_accept_below_max; [apply sound_newWindow | range | | ].
  - repeat constructor; range.
  - vm_compute. reflexivity.
Defined.

Lemma stale_forever_below_max_witness :
  verdict (CheckAndSetNonce (runAll (runAll newWindow [300]) [10; 400]) 44)
  = (ReasonOutOfWindow, false).
Proof.
  apply stale_forever_below_max.
  - destruct (runAll_sound [300] newWindow sound_newWindow) as [H _]; trivial.
    repeat constructor; range.
  - repeat constructor; range.
  - vm_compute. reflexivity.
Defined.

Lemma wrapped_window_shifts_witness :
  verdict (CheckAndSetNonce (runAll newWindow [U64.max]) (U64.max - 3))
  = (ReasonShift, true)
  /\ offset (after (CheckAndSetNonce (runAll newWindow [U64.max]) (U64.max - 3)))
     = U64.max - 3 - 255.
Proof.
  apply wrapped_window_shifts.
  - vm_compute. intuition discriminate.
  - vm_compute. discriminate.
  - vm_compute. intuition discriminate.
  - vm_compute. discriminate.
Defined.


Lemma blurString_highlight_witness :
  exists pre post,
    blurString (list_ascii_of_string "0110") 2
    = Some (pre ++ Ansi.end_ ++ Ansi.red
                ++ [nth (Z.to_nat 2) (list_ascii_of_string "0110") "000"%char]
                ++ Ansi.end_ ++ post)
    /\ uncolor pre = firstn (Z.to_nat 2) (list_ascii_of_string "0110")
    /\ uncolor post = skipn (S (Z.to_nat 2)) (list_ascii_of_string "0110").
Proof.
  apply (blurString_highlight _ 2 noEscape_sample). cbn. lia.
Defined.

